(** * cmap: a sharded, lock-protected string-to-string hash table

    A shallow embedding of [cmap.go] and the properties of its public
    operations.  The development has five parts, following the order of the
    source file read bottom-up:

    - machine integers and the [fnv32] hash with the key router [getShard];
    - the store: shards live on a heap and a [HashTable] is a slice of
      pointers to them, each shard carrying a [sync.RWMutex] and a Go map;
    - the operations [New], [From], [Get], [Put], [PutIfNotExist], [Del],
      [Has] and [Len], written in a state-and-panic monad;
    - the representation invariant that ties a table to the finite map it
      stands for, and the containers a client can reach;
    - the lemmas on each layer, and the properties of the container.

    Executions are sequential: a method runs from its first statement to its
    return without interleaving.  A lock that cannot be acquired in such a
    run is reported as [Blocked]. *)

From Stdlib Require Import ZArith Ascii String.
From stdpp Require Import gmap strings list fin_maps.

(** ** Machine integers *)

Module Int.
Local Open Scope Z_scope.

(** [uint32] arithmetic wraps modulo 2^32. *)
Definition wrap_uint32 (x : Z) : Z := x mod 2 ^ 32.

(** [uint] and [int] are 64 bits wide on the usual targets. *)
Definition uintSize : Z := 64.
Definition to_uint (x : Z) : Z := x mod 2 ^ uintSize.

Definition max_int : Z := 2 ^ 63 - 1.
Definition wrap_int (x : Z) : Z := (x + 2 ^ 63) mod 2 ^ 64 - 2 ^ 63.
End Int.

(** ** The hash and the key router *)

(** SHARD_COUNT is the number of the shards that the hashtable is divided
    into. *)
Definition SHARD_COUNT : Z := 32.

(** [uint32(key[i])]: a Go string is a sequence of bytes, and so is a
    [string] here (one [ascii] is eight bits). *)
Definition byte_val (b : ascii) : Z := Z.of_N (N_of_ascii b).

Definition prime32 : Z := 16777619.

(** The body of the [for] loop of [fnv32], run over the bytes of the key in
    order. *)
Fixpoint fnv32_loop (hash : Z) (key : string) : Z :=
  match key with
  | EmptyString => hash
  | String b rest =>
      let hash := Int.wrap_uint32 (hash * prime32) in
      let hash := Z.lxor hash (byte_val b) in
      fnv32_loop hash rest
  end.

Definition fnv32 (key : string) : Z := fnv32_loop 2166136261 key.

(** [uint(fnv32(key)) % uint(SHARD_COUNT)] *)
Definition shardIndex (key : string) : Z :=
  (Int.to_uint (fnv32 key) mod Int.to_uint SHARD_COUNT)%Z.

(** ** The store *)

(** The four ways in which the Go runtime can abort one of the methods. *)
Inductive panic : Set :=
  | IndexOutOfRange
  | NilDereference
  | NilMapAssignment
  | UnlockOfUnlocked.

Inductive outcome (A : Type) : Type :=
  | Ok (a : A)
  | Panic (e : panic)
  | Blocked.
Arguments Ok {A} a.
Arguments Panic {A} e.
Arguments Blocked {A}.

(** [sync.RWMutex], as seen by a sequential run: who holds it. *)
Module RWMutex.
Record t : Set := mk { writer : bool; readers : nat }.

(** The zero value is an unlocked mutex. *)
Definition zero : t := mk false 0.

Definition Lock (m : t) : outcome t :=
  if writer m then Blocked
  else match readers m with
       | O => Ok (mk true 0)
       | S _ => Blocked
       end.

Definition Unlock (m : t) : outcome t :=
  if writer m then Ok (mk false (readers m)) else Panic UnlockOfUnlocked.

Definition RLock (m : t) : outcome t :=
  if writer m then Blocked else Ok (mk false (S (readers m))).

Definition RUnlock (m : t) : outcome t :=
  match readers m with
  | O => Panic UnlockOfUnlocked
  | S n => Ok (mk (writer m) n)
  end.
End RWMutex.

(** A Go [map[string]string] value: [None] is the nil map. *)
Abbreviation gomap := (option (gmap string string)).

Record shard : Type := mkShard { Lock : RWMutex.t; Data : gomap }.

(** Shards are heap objects; a [*shard] is nil or an address. *)
Abbreviation loc := nat.
Abbreviation ptr := (option loc).
Abbreviation heap := (gmap loc shard).

(** HashTable is a slice of shards. Each shard contains a normal map and a
    lock. *)
Abbreviation HashTable := (list ptr).

(** *** Go map primitives *)

(** [v, ok := m[key]]; reading the nil map finds nothing. *)
Definition mapaccess (m : gomap) (key : string) : string * bool :=
  match m ≫= (.!! key) with
  | Some v => (v, true)
  | None => (EmptyString, false)
  end.

(** [m[key] = value]; assigning into the nil map panics. *)
Definition mapassign (m : gomap) (key value : string) : outcome gomap :=
  match m with
  | Some d => Ok (Some (<[key:=value]> d))
  | None => Panic NilMapAssignment
  end.

(** [delete(m, key)]; a no-op on the nil map and on an absent key. *)
Definition mapdelete (m : gomap) (key : string) : gomap := delete key <$> m.

(** [len(m)] *)
Definition maplen (m : gomap) : Z :=
  match m with
  | Some d => Z.of_nat (size d)
  | None => 0%Z
  end.

(** *** The state-and-panic monad *)

Definition M (A : Type) : Type := heap → outcome (A * heap).

#[global] Instance M_ret : MRet M := λ A a σ, Ok (a, σ).

#[global] Instance M_bind : MBind M := λ A B f m σ,
  match m σ with
  | Ok (a, σ') => f a σ'
  | Panic e => Panic e
  | Blocked => Blocked
  end.

Definition lift {A} (o : outcome A) : M A := λ σ,
  match o with
  | Ok a => Ok (a, σ)
  | Panic e => Panic e
  | Blocked => Blocked
  end.

(** [defer d; body]: [d] runs when [body] is done, after the results of
    [body] are fixed.  When [body] panics [d] still runs, and the panic goes
    on to the caller. *)
Definition defer {A} (d : M unit) (body : M A) : M A := λ σ,
  match body σ with
  | Ok (a, σ') =>
      match d σ' with
      | Ok (_, σ'') => Ok (a, σ'')
      | Panic e => Panic e
      | Blocked => Blocked
      end
  | Panic e => Panic e
  | Blocked => Blocked
  end.

(** A counted or ranged [for] loop whose body updates the loop-carried
    variable [acc]. *)
Fixpoint forM {A B} (l : list A) (body : A → B → M B) (acc : B) : M B :=
  match l with
  | [] => mret acc
  | x :: l' => acc' ← body x acc; forM l' body acc'
  end.

(** *** Heap and slice primitives *)

(** [&shard{...}]: a new object at an address not in use. *)
Definition alloc (s : shard) : M ptr := λ σ,
  let l := fresh (dom σ) in Ok (Some l, <[l:=s]> σ).

(** [*p]: nil cannot be dereferenced.  A non-nil pointer to nothing does not
    arise in Go; it is treated alike. *)
Definition load (p : ptr) : M shard := λ σ,
  match p ≫= (σ !!.) with
  | Some s => Ok (s, σ)
  | None => Panic NilDereference
  end.

Definition store (p : ptr) (s : shard) : M unit := λ σ,
  match p with
  | Some l => Ok (tt, <[l:=s]> σ)
  | None => Panic NilDereference
  end.

(** [h[i]] *)
Definition index (h : HashTable) (i : Z) : M ptr := λ σ,
  if decide (0 ≤ i < Z.of_nat (length h))%Z then
    match h !! Z.to_nat i with
    | Some p => Ok (p, σ)
    | None => Panic IndexOutOfRange
    end
  else Panic IndexOutOfRange.

(** [h[i] = p] *)
Definition index_set (h : HashTable) (i : Z) (p : ptr) : M HashTable :=
  if decide (0 ≤ i < Z.of_nat (length h))%Z
  then mret (<[Z.to_nat i:=p]> h)
  else lift (Panic IndexOutOfRange).

(** The four calls [shard.Lock.Lock()], ..., on the mutex of the shard that
    [p] points to. *)
Definition with_mutex (f : RWMutex.t → outcome RWMutex.t) (p : ptr) : M unit :=
  s ← load p;
  m ← lift (f (Lock s));
  store p (mkShard m (Data s)).

Definition shard_Lock : ptr → M unit := with_mutex RWMutex.Lock.
Definition shard_Unlock : ptr → M unit := with_mutex RWMutex.Unlock.
Definition shard_RLock : ptr → M unit := with_mutex RWMutex.RLock.
Definition shard_RUnlock : ptr → M unit := with_mutex RWMutex.RUnlock.

(** [v, ok := shard.Data[key]] *)
Definition shard_access (p : ptr) (key : string) : M (string * bool) :=
  s ← load p; mret (mapaccess (Data s) key).

(** [shard.Data[key] = value] *)
Definition shard_assign (p : ptr) (key value : string) : M unit :=
  s ← load p;
  d ← lift (mapassign (Data s) key value);
  store p (mkShard (Lock s) d).

(** [delete(shard.Data, key)] *)
Definition shard_delete (p : ptr) (key : string) : M unit :=
  s ← load p;
  store p (mkShard (Lock s) (mapdelete (Data s) key)).

(** [len(shard.Data)] *)
Definition shard_len (p : ptr) : M Z :=
  s ← load p; mret (maplen (Data s)).

(** ** The operations of cmap.go *)

(** getShard finds the FNV32 hash of the given key. It calculates the modulo
    SHARD_COUNT to get the index of the shard. *)
Definition getShard (h : HashTable) (key : string) : M ptr :=
  index h (shardIndex key).

(** The values of a loop variable [i] in [for i := 0; i < n; i++]. *)
Definition upto (n : Z) : list Z := seqZ 0 n.

(** [ht[i] = &shard{Data: make(map[string]string)}] *)
Definition New_body (i : Z) (ht : HashTable) : M HashTable :=
  p ← alloc (mkShard RWMutex.zero (Some ∅)); index_set ht i p.

(** New initializes and returns a hashtable. *)
Definition New : M HashTable :=
  let ht := replicate (Z.to_nat SHARD_COUNT) None in
  forM (upto SHARD_COUNT) New_body ht.

(** One turn of the loop of [From], for the pair [k, v] of [data]. *)
Definition From_body (ht : HashTable) (kv : string * string) (_ : unit)
    : M unit :=
  let '(k, v) := kv in
  shard ← getShard ht k;
  shard_Lock shard;;
  shard_assign shard k v;;
  shard_Unlock shard.

(** [From] once the iteration order [l] of [range data] is fixed. *)
Definition From_range (l : list (string * string)) : M HashTable :=
  ht ← New;
  forM l (From_body ht) tt;;
  mret ht.

(** From gets a normal map, constructs, and returns a thread-safe concurrent
    hashtable out of its records.  Go leaves the order of [range] over a map
    open; [map_to_list] is one such order, and the theorems about [From]
    are stated over [From_range] for every order. *)
Definition From (data : gmap string string) : M HashTable :=
  From_range (map_to_list data).

(** Get returns true and the value associated with the key. If it doesn't
    exist, it will return empty string and false. *)
Definition Get (h : HashTable) (key : string) : M (string * bool) :=
  shard ← getShard h key;
  shard_RLock shard;;
  defer (shard_RUnlock shard)
    ('(v, ok) ← shard_access shard key;
     mret (v, ok)).

(** Put adds a new key-value pair to the hashtable. If there is already a
    record with a key same as the given key, the value will be overridden. *)
Definition Put (h : HashTable) (key value : string) : M unit :=
  shard ← getShard h key;
  shard_Lock shard;;
  defer (shard_Unlock shard)
    (shard_assign shard key value).

(** PutIfNotExist will add a new key-value pair only if no record with the
    same key exists. It returns true if the new record added successfully. *)
Definition PutIfNotExist (h : HashTable) (key value : string) : M bool :=
  shard ← getShard h key;
  shard_Lock shard;;
  defer (shard_Unlock shard)
    ('(_, ok) ← shard_access shard key;
     (if negb ok then shard_assign shard key value else mret tt);;
     mret (negb ok)).

(** Del deletes the record associated with the given key. If the deletion
    was successful it will return true. If the record didn't exist, it will
    return false. *)
Definition Del (h : HashTable) (key : string) : M (string * bool) :=
  shard ← getShard h key;
  shard_Lock shard;;
  defer (shard_Unlock shard)
    ('(v, ok) ← shard_access shard key;
     shard_delete shard key;;
     mret (v, ok)).

(** Has returns true if the hashtable contains a record with a key same as
    the given key. *)
Definition Has (h : HashTable) (key : string) : M bool :=
  shard ← getShard h key;
  shard_RLock shard;;
  defer (shard_RUnlock shard)
    ('(_, ok) ← shard_access shard key;
     mret ok).

(** One turn of the loop of [Len]: [count += len(shard.Data)] under the
    read lock of shard [i]. *)
Definition Len_body (h : HashTable) (i count : Z) : M Z :=
  shard ← index h i;
  shard_RLock shard;;
  n ← shard_len shard;
  let count := Int.wrap_int (count + n) in
  shard_RUnlock shard;;
  mret count.

(** Len returns the number of key-value pairs stored in the hashtable. *)
Definition Len (h : HashTable) : M Z :=
  forM (upto SHARD_COUNT) (Len_body h) 0%Z.

(** ** The hash as the specification words it

    The routing hash written as a left fold over the byte values of the key,
    with the step "multiply by the prime with 32-bit wrap-around, then XOR
    the byte", and the shard index as the plain remainder by the shard
    count. *)

Definition key_bytes (key : string) : list Z :=
  byte_val <$> list_ascii_of_string key.

Definition spec_hash_step (hash b : Z) : Z :=
  Z.lxor ((hash * 16777619) mod 2 ^ 32)%Z b.

Definition spec_hash (key : string) : Z :=
  fold_left spec_hash_step (key_bytes key) 2166136261%Z.

Definition spec_shard_index (key : string) : Z := (spec_hash key mod 32)%Z.

(** ** The table as a finite map: definitions

    A table in its heap stands for one finite map [m]: shard [i] is free
    and holds exactly the pairs of [m] whose key the router sends to [i].
    The definitions below say so, name the states of the loops that the
    proofs walk through, and fix the containers that a client can reach. *)

(** What [v, ok := m[key]] gives on a finite map. *)
Definition found (o : option string) : string * bool :=
  match o with
  | Some v => (v, true)
  | None => (EmptyString, false)
  end.

(** The pairs of [m] whose key the router sends to shard [i]. *)
Definition routed (i : Z) (m : gmap string string) : gmap string string :=
  filter (λ kv, shardIndex kv.1 = i) m.

(** Table [h] in heap [σ] stands for [m]: it has [SHARD_COUNT] slots, no
    two of them point to the same shard, and the shard of slot [i] is free
    and holds [routed i m]. *)
Record repr (h : HashTable) (σ : heap) (m : gmap string string) : Prop := {
  repr_length : Z.of_nat (length h) = SHARD_COUNT;
  repr_noalias : ∀ i j l,
    h !! i = Some (Some l) → h !! j = Some (Some l) → i = j;
  repr_shard : ∀ i, (0 ≤ i < SHARD_COUNT)%Z →
    ∃ l, h !! Z.to_nat i = Some (Some l)
       ∧ σ !! l = Some (mkShard RWMutex.zero (Some (routed i m)))
}.

(** [shard{Data: make(map[string]string)}] *)
Definition empty_shard : shard := mkShard RWMutex.zero (Some ∅).

(** The state of the loop of [New] when [i] shards have been made. *)
Record New_partial (i : nat) (ht : HashTable) (σ : heap) : Prop := {
  partial_length : Z.of_nat (length ht) = SHARD_COUNT;
  partial_done : ∀ j, j < i →
    ∃ l, ht !! j = Some (Some l) ∧ σ !! l = Some empty_shard;
  partial_todo : ∀ j, i ≤ j → ht !! j = Some None ∨ ht !! j = None;
  partial_noalias : ∀ j j' l,
    ht !! j = Some (Some l) → ht !! j' = Some (Some l) → j = j'
}.

(** The pairs of [m] routed to a shard before shard [i]. *)
Definition below (i : Z) (m : gmap string string) : gmap string string :=
  filter (λ kv, (shardIndex kv.1 < i)%Z) m.

(** The map after the assignments [m[k] = v] for the pairs of [l], in
    order. *)
Definition inserts (l : list (string * string)) (m : gmap string string)
    : gmap string string :=
  foldl (λ m kv, <[kv.1:=kv.2]> m) m l.

(** Calling [Put] for each pair of [l] in turn. *)
Definition Put_all (h : HashTable) (l : list (string * string)) : M unit :=
  forM l (λ kv (_ : unit), Put h kv.1 kv.2) tt.

(** The tables a client can hold: made by [New] or [From] in some heap,
    then used through the methods. *)
Inductive reachable : HashTable → heap → Prop :=
  | reach_New σ0 h σ :
      New σ0 = Ok (h, σ) → reachable h σ
  | reach_From (data : gmap string string) l σ0 h σ :
      l ≡ₚ map_to_list data → From_range l σ0 = Ok (h, σ) → reachable h σ
  | reach_Put h σ k v u σ' :
      reachable h σ → Put h k v σ = Ok (u, σ') → reachable h σ'
  | reach_PutIfNotExist h σ k v b σ' :
      reachable h σ → PutIfNotExist h k v σ = Ok (b, σ') → reachable h σ'
  | reach_Del h σ k r σ' :
      reachable h σ → Del h k σ = Ok (r, σ') → reachable h σ'
  | reach_Get h σ k r σ' :
      reachable h σ → Get h k σ = Ok (r, σ') → reachable h σ'
  | reach_Has h σ k b σ' :
      reachable h σ → Has h k σ = Ok (b, σ') → reachable h σ'
  | reach_Len h σ n σ' :
      reachable h σ → Len h σ = Ok (n, σ') → reachable h σ'.

(** Between the heaps [σ] and [σ'], nothing differs but the shard that the
    router picks for [k]: every other address, and so every other slot of
    the table, holds what it held. *)
Definition only_routed_shard (h : HashTable) (k : string) (σ σ' : heap)
    : Prop :=
  ∃ l, h !! Z.to_nat (shardIndex k) = Some (Some l)
     ∧ (∀ l', l' ≠ l → σ' !! l' = σ !! l')
     ∧ (∀ (j : nat) p,
          Z.of_nat j ≠ shardIndex k → h !! j = Some (Some p) →
          σ' !! p = σ !! p).

(** Between the heaps [σ] and [σ'], nothing differs but what is at the
    address in the slot that the router picks for [k]. *)
Definition only_routed_address (h : HashTable) (k : string) (σ σ' : heap)
    : Prop :=
  ∃ l, h !! Z.to_nat (shardIndex k) = Some (Some l)
     ∧ ∀ l', l' ≠ l → σ' !! l' = σ !! l'.

(** Key [k] is stored in the shard of slot [i]. *)
Definition stored_in (h : HashTable) (σ : heap) (i : nat) (k : string)
    : Prop :=
  ∃ l s d, h !! i = Some (Some l) ∧ σ !! l = Some s ∧ Data s = Some d
         ∧ is_Some (d !! k).

(** The table that [New] makes in the empty heap, for use in examples. *)
Definition fresh_table : HashTable * heap :=
  match New ∅ with
  | Ok r => r
  | _ => ([], ∅)
  end.

(** The heap of that table after [Put("k", "w")]. *)
Definition one_entry_heap : heap :=
  match Put fresh_table.1 "k" "w" fresh_table.2 with
  | Ok (_, σ) => σ
  | _ => ∅
  end.

(** The heap of that table after [Put("a", "b")]. *)
Definition one_entry_heap_a : heap :=
  match Put fresh_table.1 "a" "b" fresh_table.2 with
  | Ok (_, σ) => σ
  | _ => ∅
  end.

(** A key that is not UTF-8: the bytes 255 and 0. *)
Definition raw_key : string :=
  String (ascii_of_nat 255) (String (ascii_of_nat 0) EmptyString).

(** The first two statements of every keyed method: the slot that the
    router picks in [h], and the shard it points to. *)
Definition locate (h : HashTable) (key : string) (σ : heap)
    : outcome (loc * shard) :=
  if decide (0 ≤ shardIndex key < Z.of_nat (length h))%Z then
    match h !! Z.to_nat (shardIndex key) with
    | Some (Some l) =>
        match σ !! l with
        | Some s => Ok (l, s)
        | None => Panic NilDereference
        end
    | Some None => Panic NilDereference
    | None => Panic IndexOutOfRange
    end
  else Panic IndexOutOfRange.

(** Every mutex is in [σ'] as it is in [σ]. *)
Definition locks_kept (σ σ' : heap) : Prop :=
  ∀ l, Lock <$> σ' !! l = Lock <$> σ !! l.

(** The table [make(HashTable, SHARD_COUNT)] before [New] fills it. *)
Definition nil_table : HashTable := replicate (Z.to_nat SHARD_COUNT) None.

(** The heap of [fresh_table] with the mutex of the shard of key ["k"] in
    state [m]. *)
Definition heap_with_lock (m : RWMutex.t) : heap :=
  match getShard fresh_table.1 "k" fresh_table.2 with
  | Ok (Some l, _) => <[l:=mkShard m (Some ∅)]> fresh_table.2
  | _ => ∅
  end.

(** The heap of [fresh_table] with [&shard{}], a shard without a map, in
    place of the shard of key ["k"]. *)
Definition nil_map_heap : heap :=
  match getShard fresh_table.1 "k" fresh_table.2 with
  | Ok (Some l, _) => <[l:=mkShard RWMutex.zero None]> fresh_table.2
  | _ => ∅
  end.

(** The map of the shard that [p] points to; nothing for nil, for an
    address not in use and for a shard without a map. *)
Definition shard_data (σ : heap) (p : ptr) : gmap string string :=
  match p ≫= (σ !!.) with
  | Some s => default ∅ (Data s)
  | None => ∅
  end.

(** All the pairs that the table holds: the maps of its shards put
    together. *)
Definition contents (h : HashTable) (σ : heap) : gmap string string :=
  ⋃ (shard_data σ <$> h).

(** ** Facts about the hash *)

Section hash_facts.
Local Open Scope Z_scope.

Lemma byte_val_range b : 0 ≤ byte_val b < 256.
Proof.
  unfold byte_val. pose proof (N_ascii_bounded b). lia.
Qed.

Lemma lxor_below n a b :
  0 < n → 0 ≤ a < 2 ^ n → 0 ≤ b < 2 ^ n → 0 ≤ Z.lxor a b < 2 ^ n.
Proof.
  intros Hn Ha Hb. split; [apply Z.lxor_nonneg; lia|].
  destruct (decide (Z.lxor a b = 0)) as [->|Hx]; [lia|].
  assert (0 < Z.lxor a b) by (pose proof (proj2 (Z.lxor_nonneg a b)); lia).
  apply Z.log2_lt_pow2; [done|].
  pose proof (Z.log2_lxor a b) as Hl.
  assert (∀ c, 0 ≤ c < 2 ^ n → Z.log2 c < n) as Hlog.
  { intros c Hc. destruct (decide (c = 0)) as [->|]; [simpl; lia|].
    apply Z.log2_lt_pow2; lia. }
  pose proof (Hlog a Ha). pose proof (Hlog b Hb). lia.
Qed.

Lemma fnv32_loop_range key : ∀ hash,
  0 ≤ hash < 2 ^ 32 → 0 ≤ fnv32_loop hash key < 2 ^ 32.
Proof.
  induction key as [|b rest IH]; intros hash Hh; simpl; [done|].
  apply IH. apply lxor_below; [lia| |].
  - unfold Int.wrap_uint32. apply Z.mod_pos_bound. lia.
  - pose proof (byte_val_range b). lia.
Qed.

Lemma fnv32_range key : 0 ≤ fnv32 key < 2 ^ 32.
Proof. apply fnv32_loop_range. lia. Qed.

Lemma fnv32_loop_spec key : ∀ hash,
  fnv32_loop hash key = fold_left spec_hash_step (key_bytes key) hash.
Proof.
  induction key as [|b rest IH]; intros hash; simpl; [done|].
  by rewrite IH.
Qed.

(** The conversion [uint(...)] of a [uint32] keeps its value. *)
Lemma to_uint_fnv32 key : Int.to_uint (fnv32 key) = fnv32 key.
Proof.
  unfold Int.to_uint, Int.uintSize. apply Z.mod_small.
  pose proof (fnv32_range key). lia.
Qed.

Lemma shardIndex_eq key : shardIndex key = fnv32 key mod 32.
Proof. unfold shardIndex. by rewrite to_uint_fnv32. Qed.

Lemma shardIndex_range key : 0 ≤ shardIndex key < SHARD_COUNT.
Proof.
  rewrite shardIndex_eq. unfold SHARD_COUNT. apply Z.mod_pos_bound. lia.
Qed.
End hash_facts.

(** ** Running the primitives *)

(** Unfolds the monad and the heap primitives down to matches on lookups. *)
Ltac unfold_prims :=
  unfold shard_Lock, shard_Unlock, shard_RLock, shard_RUnlock, with_mutex,
    shard_access, shard_assign, shard_delete, shard_len, getShard, index,
    load, store, lift, defer, mbind, M_bind, mret, M_ret in *.

(** Splits a successful run into the facts that made each step succeed. *)
Ltac invert_run :=
  unfold_prims; cbn in *; simplify_eq/=;
  repeat (case_match; simplify_eq/=).

Section primitives.
Context (σ : heap) (l : loc) (s : shard).
Hypothesis Hl : σ !! l = Some s.

Lemma load_run : load (Some l) σ = Ok (s, σ).
Proof. unfold load. simpl. by rewrite Hl. Qed.

Lemma with_mutex_run f m :
  f (Lock s) = Ok m →
  with_mutex f (Some l) σ = Ok (tt, <[l:=mkShard m (Data s)]> σ).
Proof. intros Hf. unfold_prims. simpl. by rewrite Hl, Hf. Qed.

Lemma shard_access_run key :
  shard_access (Some l) key σ = Ok (mapaccess (Data s) key, σ).
Proof. unfold_prims. simpl. by rewrite Hl. Qed.

Lemma shard_assign_run key value d :
  Data s = Some d →
  shard_assign (Some l) key value σ
  = Ok (tt, <[l:=mkShard (Lock s) (Some (<[key:=value]> d))]> σ).
Proof. intros Hd. unfold_prims. simpl. by rewrite Hl, Hd. Qed.

Lemma shard_delete_run key :
  shard_delete (Some l) key σ
  = Ok (tt, <[l:=mkShard (Lock s) (mapdelete (Data s) key)]> σ).
Proof. unfold_prims. simpl. by rewrite Hl. Qed.

Lemma shard_len_run : shard_len (Some l) σ = Ok (maplen (Data s), σ).
Proof. unfold_prims. simpl. by rewrite Hl. Qed.
End primitives.

Lemma index_run (h : HashTable) (i : Z) p σ :
  (0 ≤ i)%Z → h !! Z.to_nat i = Some p → index h i σ = Ok (p, σ).
Proof.
  intros Hi Hp. unfold index. apply lookup_lt_Some in Hp as Hlt.
  rewrite decide_True by lia. by rewrite Hp.
Qed.

Lemma index_inv (h : HashTable) (i : Z) p σ σ' :
  index h i σ = Ok (p, σ') →
  (0 ≤ i < Z.of_nat (length h))%Z ∧ h !! Z.to_nat i = Some p ∧ σ' = σ.
Proof. unfold index. intros. repeat case_match; by simplify_eq. Qed.

Lemma with_mutex_inv f p σ u σ' :
  with_mutex f p σ = Ok (u, σ') →
  ∃ l s m, p = Some l ∧ σ !! l = Some s ∧ f (Lock s) = Ok m
           ∧ σ' = <[l:=mkShard m (Data s)]> σ.
Proof.
  intros H. destruct p as [l|]; invert_run; eauto 10.
Qed.

(** The mutex of a shard is free exactly when [Lock] can take it; holding
    it and releasing it gives the free mutex back. *)
Lemma RWMutex_Lock_inv m m' :
  RWMutex.Lock m = Ok m' → m = RWMutex.zero ∧ m' = RWMutex.mk true 0.
Proof.
  destruct m as [[] []]; unfold RWMutex.Lock; simpl; intros; by simplify_eq.
Qed.

Lemma RWMutex_RLock_RUnlock m m' :
  RWMutex.RLock m = Ok m' → RWMutex.RUnlock m' = Ok m.
Proof.
  destruct m as [[] n]; unfold RWMutex.RLock; simpl; intros; by simplify_eq.
Qed.

Lemma bind_inv {A B} (m : M A) (f : A → M B) σ r :
  (m ≫= f) σ = Ok r → ∃ a σ1, m σ = Ok (a, σ1) ∧ f a σ1 = Ok r.
Proof.
  unfold mbind, M_bind. destruct (m σ) as [[a σ1]| |]; [eauto|done..].
Qed.

Lemma bind_run {A B} (m : M A) (f : A → M B) σ a σ1 :
  m σ = Ok (a, σ1) → (m ≫= f) σ = f a σ1.
Proof. unfold mbind, M_bind. by intros ->. Qed.

Lemma defer_inv {A} (d : M unit) (body : M A) σ a σ' :
  defer d body σ = Ok (a, σ') →
  ∃ σ1 u, body σ = Ok (a, σ1) ∧ d σ1 = Ok (u, σ').
Proof.
  unfold defer. destruct (body σ) as [[a1 σ1]| |]; [|done..].
  destruct (d σ1) as [[u σ2]| |] eqn:Hd; [|done..].
  intros; simplify_eq. eauto.
Qed.

Lemma defer_run {A} (d : M unit) (body : M A) σ a σ1 u σ2 :
  body σ = Ok (a, σ1) → d σ1 = Ok (u, σ2) → defer d body σ = Ok (a, σ2).
Proof. unfold defer. by intros -> ->. Qed.

Lemma ret_inv {A} (a b : A) σ σ' :
  mret (M:=M) a σ = Ok (b, σ') → b = a ∧ σ' = σ.
Proof. unfold mret, M_ret. intros; by simplify_eq. Qed.

Lemma shard_access_inv p key r σ σ' :
  shard_access p key σ = Ok (r, σ') →
  ∃ l s, p = Some l ∧ σ !! l = Some s ∧ r = mapaccess (Data s) key ∧ σ' = σ.
Proof. intros H. destruct p; invert_run; eauto 10. Qed.

Lemma shard_assign_inv p key value u σ σ' :
  shard_assign p key value σ = Ok (u, σ') →
  ∃ l s d, p = Some l ∧ σ !! l = Some s ∧ Data s = Some d
    ∧ σ' = <[l:=mkShard (Lock s) (Some (<[key:=value]> d))]> σ.
Proof.
  intros H. destruct p; invert_run.
  unfold mapassign in *. case_match; simplify_eq. eauto 10.
Qed.

Lemma shard_delete_inv p key u σ σ' :
  shard_delete p key σ = Ok (u, σ') →
  ∃ l s, p = Some l ∧ σ !! l = Some s
    ∧ σ' = <[l:=mkShard (Lock s) (mapdelete (Data s) key)]> σ.
Proof. intros H. destruct p; invert_run; eauto 10. Qed.

Lemma shard_len_inv p n σ σ' :
  shard_len p σ = Ok (n, σ') →
  ∃ l s, p = Some l ∧ σ !! l = Some s ∧ n = maplen (Data s) ∧ σ' = σ.
Proof. intros H. destruct p; invert_run; eauto 10. Qed.

(** Takes a successful run of a method apart, statement by statement. *)
Ltac inv_steps :=
  repeat match goal with
  | H : (let (_, _) := ?x in _) _ = Ok _ |- _ => destruct x
  | H : (if ?b then _ else _) _ = Ok _ |- _ => destruct b eqn:?
  | H : (_ ≫= _) _ = Ok _ |- _ =>
      let H1 := fresh "Hstep" in apply bind_inv in H as (? & ? & H1 & H)
  | H : defer _ _ _ = Ok _ |- _ =>
      let H1 := fresh "Hbody" in apply defer_inv in H as (? & ? & H1 & H)
  | H : mret _ _ = Ok _ |- _ => apply ret_inv in H as [? ?]
  | H : getShard _ _ _ = Ok _ |- _ => apply index_inv in H as (? & ? & ?)
  | H : index _ _ _ = Ok _ |- _ => apply index_inv in H as (? & ? & ?)
  | H : shard_Lock _ _ = Ok _ |- _ =>
      apply with_mutex_inv in H as (? & ? & ? & ? & ? & ? & ?)
  | H : shard_Unlock _ _ = Ok _ |- _ =>
      apply with_mutex_inv in H as (? & ? & ? & ? & ? & ? & ?)
  | H : shard_RLock _ _ = Ok _ |- _ =>
      apply with_mutex_inv in H as (? & ? & ? & ? & ? & ? & ?)
  | H : shard_RUnlock _ _ = Ok _ |- _ =>
      apply with_mutex_inv in H as (? & ? & ? & ? & ? & ? & ?)
  | H : shard_access _ _ _ = Ok _ |- _ =>
      apply shard_access_inv in H as (? & ? & ? & ? & ? & ?)
  | H : shard_assign _ _ _ _ = Ok _ |- _ =>
      apply shard_assign_inv in H as (? & ? & ? & ? & ? & ? & ?)
  | H : shard_delete _ _ _ = Ok _ |- _ =>
      apply shard_delete_inv in H as (? & ? & ? & ? & ?)
  | H : shard_len _ _ = Ok _ |- _ =>
      apply shard_len_inv in H as (? & ? & ? & ? & ? & ?)
  | H : <[?l:=_]> _ !! ?l = Some _ |- _ => rewrite lookup_insert_eq in H
  | H : RWMutex.Unlock (RWMutex.mk _ _) = Ok _ |- _ =>
      cbv [RWMutex.Unlock RWMutex.writer RWMutex.readers] in H
  | _ => progress simplify_eq/=
  end.

(** *** What a successful run of each method did *)

Lemma Put_inv h key value σ u σ' :
  Put h key value σ = Ok (u, σ') →
  ∃ l d, h !! Z.to_nat (shardIndex key) = Some (Some l)
    ∧ σ !! l = Some (mkShard RWMutex.zero (Some d))
    ∧ σ' = <[l:=mkShard RWMutex.zero (Some (<[key:=value]> d))]> σ.
Proof.
  unfold Put. intros H. inv_steps.
  match goal with H : RWMutex.Lock _ = _ |- _ =>
    apply RWMutex_Lock_inv in H as [? ->] end.
  match goal with s : shard |- _ => destruct s as [m d0] end.
  inv_steps. rewrite !insert_insert_eq. eauto.
Qed.

Lemma Get_inv h key σ r σ' :
  Get h key σ = Ok (r, σ') →
  ∃ l s, h !! Z.to_nat (shardIndex key) = Some (Some l)
    ∧ σ !! l = Some s
    ∧ RWMutex.writer (Lock s) = false
    ∧ r = mapaccess (Data s) key
    ∧ σ' = σ.
Proof.
  unfold Get. intros H. inv_steps.
  match goal with H : RWMutex.RLock _ = _ |- _ =>
    pose proof (RWMutex_RLock_RUnlock _ _ H);
    unfold RWMutex.RLock in H; case_match; [done|] end.
  match goal with s : shard |- _ => destruct s as [m d0] end.
  inv_steps. rewrite insert_insert_eq.
  match goal with
  | H1 : RWMutex.RUnlock ?a = Ok ?m1, H2 : RWMutex.RUnlock ?a = Ok ?m2 |- _ =>
      assert (m2 = m1) as -> by congruence
  end.
  eexists _, _. split_and!; [done..|]. by rewrite insert_id.
Qed.

Lemma Has_inv h key σ r σ' :
  Has h key σ = Ok (r, σ') →
  ∃ l s, h !! Z.to_nat (shardIndex key) = Some (Some l)
    ∧ σ !! l = Some s
    ∧ RWMutex.writer (Lock s) = false
    ∧ r = (mapaccess (Data s) key).2
    ∧ σ' = σ.
Proof.
  unfold Has. intros H. inv_steps.
  match goal with H : RWMutex.RLock _ = _ |- _ =>
    pose proof (RWMutex_RLock_RUnlock _ _ H);
    unfold RWMutex.RLock in H; case_match; [done|] end.
  match goal with s : shard |- _ => destruct s as [m d0] end.
  inv_steps. rewrite insert_insert_eq.
  match goal with
  | H1 : RWMutex.RUnlock ?a = Ok ?m1, H2 : RWMutex.RUnlock ?a = Ok ?m2 |- _ =>
      assert (m2 = m1) as -> by congruence
  end.
  eexists _, _. split_and!; [done..| |].
  - simpl. by match goal with H : _ = mapaccess _ _ |- _ => rewrite <- H end.
  - by rewrite insert_id.
Qed.

Lemma Del_inv h key σ r σ' :
  Del h key σ = Ok (r, σ') →
  ∃ l d, h !! Z.to_nat (shardIndex key) = Some (Some l)
    ∧ σ !! l = Some (mkShard RWMutex.zero d)
    ∧ r = mapaccess d key
    ∧ σ' = <[l:=mkShard RWMutex.zero (mapdelete d key)]> σ.
Proof.
  unfold Del. intros H. inv_steps.
  match goal with H : RWMutex.Lock _ = _ |- _ =>
    apply RWMutex_Lock_inv in H as [? ->] end.
  match goal with s : shard |- _ => destruct s as [m d0] end.
  inv_steps. rewrite !insert_insert_eq.
  eexists _, _. split_and!; [done..| |done]. by destruct (mapaccess _ _).
Qed.

Lemma PutIfNotExist_inv h key value σ r σ' :
  PutIfNotExist h key value σ = Ok (r, σ') →
  ∃ l d, h !! Z.to_nat (shardIndex key) = Some (Some l)
    ∧ σ !! l = Some (mkShard RWMutex.zero d)
    ∧ r = negb (mapaccess d key).2
    ∧ σ' = (if r
            then <[l:=mkShard RWMutex.zero
                        (Some (<[key:=value]> (default ∅ d)))]> σ
            else σ)
    ∧ (r = true → is_Some d).
Proof.
  unfold PutIfNotExist. intros H. inv_steps.
  all: match goal with H : RWMutex.Lock _ = _ |- _ =>
    apply RWMutex_Lock_inv in H as [? ->] end.
  all: match goal with s : shard |- _ => destruct s as [m d0] end.
  all: inv_steps; rewrite ?insert_insert_eq.
  all: eexists _, _; split_and!; [done..| | |].
  all: try match goal with H : negb ?b = _ |- _ =>
    destruct b eqn:?; simplify_eq/= end.
  all: try match goal with H : _ = mapaccess _ _ |- _ => rewrite <- H end.
  all: try done; eauto.
  by apply insert_id.
Qed.

(** *** Running each method on a shard that is free and has a map *)

Section ready_shard.
Context (h : HashTable) (σ : heap) (key : string).
Context (l : loc) (d : gmap string string).
Hypothesis Hslot : h !! Z.to_nat (shardIndex key) = Some (Some l).
Hypothesis Hshard : σ !! l = Some (mkShard RWMutex.zero (Some d)).

Local Ltac run_steps :=
  pose proof (shardIndex_range key);
  pose proof (lookup_lt_Some _ _ _ Hslot);
  unfold_prims;
  repeat first
    [ progress cbn
    | rewrite decide_True by lia
    | rewrite Hslot
    | rewrite Hshard
    | rewrite lookup_insert_eq
    | rewrite insert_insert_eq ].

Lemma getShard_run : getShard h key σ = Ok (Some l, σ).
Proof. by run_steps. Qed.

Lemma Put_run value :
  Put h key value σ
  = Ok (tt, <[l:=mkShard RWMutex.zero (Some (<[key:=value]> d))]> σ).
Proof. unfold Put. by run_steps. Qed.

Lemma Get_run : Get h key σ = Ok (mapaccess (Some d) key, σ).
Proof.
  unfold Get. run_steps. destruct (mapaccess _ _). run_steps.
  by rewrite insert_id.
Qed.

Lemma Has_run : Has h key σ = Ok ((mapaccess (Some d) key).2, σ).
Proof.
  unfold Has. run_steps. destruct (mapaccess _ _). run_steps.
  by rewrite insert_id.
Qed.

Lemma Del_run :
  Del h key σ
  = Ok (mapaccess (Some d) key,
        <[l:=mkShard RWMutex.zero (Some (delete key d))]> σ).
Proof. unfold Del. run_steps. destruct (mapaccess _ _). by run_steps. Qed.

Lemma PutIfNotExist_run value :
  PutIfNotExist h key value σ
  = Ok (if d !! key is Some _ then
          (false, σ)
        else
          (true, <[l:=mkShard RWMutex.zero (Some (<[key:=value]> d))]> σ)).
Proof.
  unfold PutIfNotExist. run_steps. unfold mapaccess. cbn.
  destruct (d !! key); run_steps; [by rewrite insert_id|done].
Qed.
End ready_shard.

(** ** The table as a finite map: facts *)

Section routed_facts.
Implicit Types (m : gmap string string) (k v : string) (i : Z).

Lemma routed_lookup_Some i m k v :
  routed i m !! k = Some v ↔ m !! k = Some v ∧ shardIndex k = i.
Proof. unfold routed. by rewrite map_lookup_filter_Some. Qed.

Lemma routed_lookup m k : routed (shardIndex k) m !! k = m !! k.
Proof.
  apply option_eq. intros v. rewrite routed_lookup_Some.
  split; [by intros [? _]|done].
Qed.

Lemma routed_lookup_ne i m k : shardIndex k ≠ i → routed i m !! k = None.
Proof.
  intros Hne. apply eq_None_not_Some. intros [v Hv].
  apply routed_lookup_Some in Hv as [_ Hv]. done.
Qed.

Lemma routed_empty i : routed i ∅ = ∅.
Proof. apply map_filter_empty. Qed.

Lemma routed_insert m k v :
  routed (shardIndex k) (<[k:=v]> m) = <[k:=v]> (routed (shardIndex k) m).
Proof. unfold routed. by rewrite map_filter_insert_True. Qed.

Lemma routed_insert_ne i m k v :
  shardIndex k ≠ i → routed i (<[k:=v]> m) = routed i m.
Proof. intros. unfold routed. by rewrite map_filter_insert_not. Qed.

Lemma routed_delete i m k : routed i (delete k m) = delete k (routed i m).
Proof. apply map_filter_delete. Qed.

Lemma routed_delete_ne i m k :
  shardIndex k ≠ i → routed i (delete k m) = routed i m.
Proof.
  intros. rewrite routed_delete. by apply delete_id, routed_lookup_ne.
Qed.
End routed_facts.

(** Writing the new contents of the shard of [k] keeps the representation,
    for any change of [m] that only concerns [k]. *)
Lemma repr_update h σ m m' k l :
  repr h σ m →
  h !! Z.to_nat (shardIndex k) = Some (Some l) →
  (∀ i, shardIndex k ≠ i → routed i m' = routed i m) →
  repr h (<[l:=mkShard RWMutex.zero (Some (routed (shardIndex k) m'))]> σ) m'.
Proof.
  intros [Hlen Hna Hsh] Hl Hm'. split; [done..|].
  intros i Hi. destruct (Hsh i Hi) as (l' & Hl' & Hσ).
  exists l'. split; [done|].
  destruct (decide (shardIndex k = i)) as [<-|Hne].
  - assert (l' = l) as -> by congruence. by rewrite lookup_insert_eq.
  - rewrite lookup_insert_ne, Hm'; [done..|].
    intros <-. pose proof (Hna _ _ _ Hl Hl'). pose proof (shardIndex_range k).
    lia.
Qed.

Lemma repr_ready h σ m k :
  repr h σ m →
  ∃ l, h !! Z.to_nat (shardIndex k) = Some (Some l)
     ∧ σ !! l = Some (mkShard RWMutex.zero (Some (routed (shardIndex k) m))).
Proof. intros Hr. apply Hr, shardIndex_range. Qed.

(** *** The methods against the finite map *)

Section methods_repr.
Context (h : HashTable) (σ : heap) (m : gmap string string).
Hypothesis Hrepr : repr h σ m.

Lemma repr_Get k : Get h k σ = Ok (found (m !! k), σ).
Proof.
  destruct (repr_ready _ _ _ k Hrepr) as (l & Hl & Hσ).
  rewrite (Get_run _ _ _ _ _ Hl Hσ). unfold mapaccess. simpl.
  by rewrite routed_lookup.
Qed.

Lemma repr_Has k : Has h k σ = Ok (bool_decide (is_Some (m !! k)), σ).
Proof.
  destruct (repr_ready _ _ _ k Hrepr) as (l & Hl & Hσ).
  rewrite (Has_run _ _ _ _ _ Hl Hσ). unfold mapaccess. simpl.
  rewrite routed_lookup. by destruct (m !! k).
Qed.

Lemma repr_Put k v :
  ∃ σ', Put h k v σ = Ok (tt, σ') ∧ repr h σ' (<[k:=v]> m).
Proof.
  destruct (repr_ready _ _ _ k Hrepr) as (l & Hl & Hσ).
  rewrite (Put_run _ _ _ _ _ Hl Hσ). eexists; split; [done|].
  rewrite <- routed_insert. apply (repr_update h σ m); [done..|].
  intros. by apply routed_insert_ne.
Qed.

Lemma repr_Del k :
  ∃ σ', Del h k σ = Ok (found (m !! k), σ') ∧ repr h σ' (delete k m).
Proof.
  destruct (repr_ready _ _ _ k Hrepr) as (l & Hl & Hσ).
  rewrite (Del_run _ _ _ _ _ Hl Hσ). eexists; split.
  - unfold mapaccess. simpl. by rewrite routed_lookup.
  - rewrite <- routed_delete. apply (repr_update h σ m); [done..|].
    intros. by apply routed_delete_ne.
Qed.

Lemma repr_PutIfNotExist k v :
  ∃ σ', PutIfNotExist h k v σ = Ok (bool_decide (m !! k = None), σ')
      ∧ repr h σ' (if m !! k is Some _ then m else <[k:=v]> m).
Proof.
  destruct (repr_ready _ _ _ k Hrepr) as (l & Hl & Hσ).
  rewrite (PutIfNotExist_run _ _ _ _ _ Hl Hσ). rewrite routed_lookup.
  destruct (m !! k) eqn:Hk; (eexists; split; [done|]); [done|].
  rewrite <- routed_insert. apply (repr_update h σ m); [done..|].
  intros. by apply routed_insert_ne.
Qed.
End methods_repr.

(** ** Construction *)

Lemma New_partial_allocated i ht σ j l :
  New_partial i ht σ → ht !! j = Some (Some l) → σ !! l = Some empty_shard.
Proof.
  intros Hp Hj. destruct (decide (j < i)) as [Hlt|Hge].
  - destruct (partial_done _ _ _ Hp j Hlt) as (l' & ? & ?). congruence.
  - destruct (partial_todo _ _ _ Hp j ltac:(lia)); congruence.
Qed.

Lemma New_partial_step i ht σ :
  (Z.of_nat i < SHARD_COUNT)%Z →
  New_partial i ht σ →
  New_partial (S i) (<[i:=Some (fresh (dom σ))]> ht)
    (<[fresh (dom σ):=empty_shard]> σ).
Proof.
  intros Hi Hp. set (l := fresh (dom σ)).
  assert (σ !! l = None) as Hfresh by apply not_elem_of_dom, is_fresh.
  assert (i < length ht) as Hlen by (pose proof (partial_length _ _ _ Hp); lia).
  assert (∀ j, ht !! j ≠ Some (Some l)) as Hnew.
  { intros j Hj. apply (New_partial_allocated _ _ _ _ _ Hp) in Hj. congruence. }
  split.
  - rewrite length_insert. apply Hp.
  - intros j Hj. destruct (decide (j = i)) as [->|Hne].
    + exists l. by rewrite list_lookup_insert_eq, lookup_insert_eq.
    + destruct (partial_done _ _ _ Hp j ltac:(lia)) as (l' & Hl' & Hσ).
      exists l'. rewrite list_lookup_insert_ne by done. split; [done|].
      rewrite lookup_insert_ne; [done|]. intros <-. by eapply Hnew.
  - intros j Hj. rewrite list_lookup_insert_ne by lia.
    apply (partial_todo _ _ _ Hp). lia.
  - intros j j' l0.
    destruct (decide (j = i)) as [->|Hj], (decide (j' = i)) as [->|Hj'];
      rewrite ?list_lookup_insert_eq, ?list_lookup_insert_ne by done;
      [done| | |by apply (partial_noalias _ _ _ Hp)].
    + intros [= <-] Hl. by apply Hnew in Hl.
    + intros Hl [= <-]. by apply Hnew in Hl.
Qed.

Lemma New_body_run (i : nat) ht σ :
  i < length ht →
  New_body (Z.of_nat i) ht σ
  = Ok (<[i:=Some (fresh (dom σ))]> ht, <[fresh (dom σ):=empty_shard]> σ).
Proof.
  intros Hi. unfold New_body, alloc, index_set, mbind, M_bind.
  rewrite decide_True by lia. unfold mret, M_ret. by rewrite Nat2Z.id.
Qed.

Lemma New_loop n : ∀ i ht σ,
  (Z.of_nat (i + n) = SHARD_COUNT)%Z →
  New_partial i ht σ →
  ∃ h σ', forM (seqZ (Z.of_nat i) (Z.of_nat n)) New_body ht σ = Ok (h, σ')
        ∧ New_partial (i + n) h σ'
        ∧ σ ⊆ σ'.
Proof.
  induction n as [|n IH]; intros i ht σ Hin Hp.
  - exists ht, σ. by rewrite Nat.add_0_r.
  - rewrite seqZ_cons by lia. cbn [forM].
    assert (i < length ht) by (pose proof (partial_length _ _ _ Hp); lia).
    erewrite bind_run by by apply New_body_run.
    replace (Z.succ (Z.of_nat i)) with (Z.of_nat (S i)) by lia.
    replace (Z.pred (Z.of_nat (S n))) with (Z.of_nat n) by lia.
    destruct (IH (S i) _ _ ltac:(lia)
                (New_partial_step i ht σ ltac:(lia) Hp)) as (h & σ' & ? & ? & ?).
    exists h, σ'. rewrite <- Nat.add_succ_comm. split_and!; [done..|].
    etrans; [|done]. apply insert_subseteq, not_elem_of_dom, is_fresh.
Qed.

(** [New] always returns, and what it returns stands for the empty map;
    what was in the heap before is still there. *)
Lemma New_repr σ0 :
  ∃ h σ, New σ0 = Ok (h, σ) ∧ repr h σ ∅ ∧ σ0 ⊆ σ.
Proof.
  destruct (New_loop (Z.to_nat SHARD_COUNT) 0
              (replicate (Z.to_nat SHARD_COUNT) None) σ0)
    as (h & σ & Hrun & Hp & Hsub); [done| |].
  { split; [by rewrite length_replicate|lia| |].
    - intros j _. destruct (decide (j < Z.to_nat SHARD_COUNT)).
      + left. by apply lookup_replicate_2.
      + right. apply lookup_ge_None. rewrite length_replicate. lia.
    - intros j j' l Hj. by apply lookup_replicate in Hj as [? _]. }
  exists h, σ. split_and!; [done| |done].
  destruct Hp as [Hlen Hdone _ Hna]. split; [done..|].
  intros i Hi. destruct (Hdone (Z.to_nat i)) as (l & ? & ?).
  { unfold SHARD_COUNT in *. lia. }
  exists l. rewrite routed_empty. split; assumption.
Qed.

(** ** Counting *)

Section below_facts.
Implicit Types (m : gmap string string) (i : Z).

Lemma below_0 m : below 0 m = ∅.
Proof.
  apply map_empty_filter_2. intros k v _. simpl.
  pose proof (shardIndex_range k). lia.
Qed.

Lemma below_all m : below SHARD_COUNT m = m.
Proof.
  apply map_filter_id. intros k v _. simpl. apply shardIndex_range.
Qed.

Lemma below_succ i m :
  size (below (i + 1) m) = size (below i m) + size (routed i m).
Proof.
  rewrite <- map_size_disj_union.
  - f_equal. unfold below, routed. rewrite <- map_filter_or.
    apply map_filter_ext. intros k v _. simpl. lia.
  - apply map_disjoint_spec. intros k v v' Hb Hr.
    apply map_lookup_filter_Some in Hb as [_ Hb].
    apply routed_lookup_Some in Hr as [_ Hr]. simpl in Hb. lia.
Qed.

Lemma below_size_le i m : size (below i m) ≤ size m.
Proof. apply map_subseteq_size, map_filter_subseteq. Qed.
End below_facts.

Lemma wrap_int_small x :
  (0 ≤ x ≤ Int.max_int)%Z → Int.wrap_int x = x.
Proof.
  unfold Int.wrap_int, Int.max_int. intros Hx.
  rewrite Z.mod_small; lia.
Qed.

Lemma Len_body_run h σ m i count :
  repr h σ m → (0 ≤ i < SHARD_COUNT)%Z →
  Len_body h i count σ
  = Ok (Int.wrap_int (count + Z.of_nat (size (routed i m))), σ).
Proof.
  intros Hr Hi. destruct (repr_shard _ _ _ Hr i Hi) as (l & Hl & Hσ).
  unfold Len_body.
  erewrite bind_run by (apply index_run; [lia|done]).
  erewrite bind_run by (by apply with_mutex_run).
  erewrite bind_run by (apply shard_len_run, lookup_insert_eq).
  erewrite bind_run.
  2:{ apply with_mutex_run; [apply lookup_insert_eq|done]. }
  unfold mret, M_ret. simpl. rewrite insert_insert_eq.
  by rewrite insert_id.
Qed.

Lemma Len_loop h σ m n : ∀ i : nat,
  repr h σ m →
  (Z.of_nat (i + n) = SHARD_COUNT)%Z →
  (Z.of_nat (size m) ≤ Int.max_int)%Z →
  forM (seqZ (Z.of_nat i) (Z.of_nat n)) (Len_body h)
    (Z.of_nat (size (below (Z.of_nat i) m))) σ
  = Ok (Z.of_nat (size m), σ).
Proof.
  induction n as [|n IH]; intros i Hr Hin Hmax.
  - simpl. unfold mret, M_ret. rewrite Nat.add_0_r in Hin.
    by rewrite Hin, below_all.
  - rewrite seqZ_cons by lia. cbn [forM].
    erewrite bind_run by (by apply (Len_body_run h σ m); [|lia]).
    rewrite <- Nat2Z.inj_add, <- below_succ.
    rewrite wrap_int_small.
    2:{ pose proof (below_size_le (Z.of_nat i + 1) m). lia. }
    replace (Z.succ (Z.of_nat i)) with (Z.of_nat (S i)) by lia.
    replace (Z.pred (Z.of_nat (S n))) with (Z.of_nat n) by lia.
    replace (Z.of_nat i + 1)%Z with (Z.of_nat (S i)) by lia.
    apply IH; [done|lia|done].
Qed.

(** On a table that stands for [m], [Len] returns the size of [m] and
    leaves the heap as it was. *)
Lemma repr_Len h σ m :
  repr h σ m →
  (Z.of_nat (size m) ≤ Int.max_int)%Z →
  Len h σ = Ok (Z.of_nat (size m), σ).
Proof.
  intros Hr Hmax. unfold Len, upto.
  pose proof (Len_loop h σ m (Z.to_nat SHARD_COUNT) 0 Hr eq_refl Hmax) as H.
  rewrite below_0, map_size_empty in H. exact H.
Qed.

(** [Len] returns on every table that stands for a map, whatever its
    size. *)
Lemma Len_loop_total h σ m l : ∀ count,
  repr h σ m →
  Forall (λ i, 0 ≤ i < SHARD_COUNT)%Z l →
  ∃ n, forM l (Len_body h) count σ = Ok (n, σ).
Proof.
  induction l as [|i l IH]; intros count Hr Hl.
  - by exists count.
  - apply Forall_cons in Hl as [Hi Hl]. cbn [forM].
    erewrite bind_run by (by apply (Len_body_run h σ m)).
    by apply IH.
Qed.

Lemma repr_Len_total h σ m : repr h σ m → ∃ n, Len h σ = Ok (n, σ).
Proof.
  intros Hr. unfold Len. apply (Len_loop_total h σ m); [done|].
  apply Forall_forall. intros i Hi. apply elem_of_seqZ in Hi. lia.
Qed.

(** ** Sequences of insertions *)

Lemma inserts_union l : ∀ m,
  NoDup l.*1 → inserts l m = list_to_map l ∪ m.
Proof.
  induction l as [|[k v] l IH]; intros m Hnd; simpl.
  - by rewrite (left_id_L ∅ (∪)).
  - apply NoDup_cons in Hnd as [Hk Hnd]. unfold inserts in *. simpl.
    rewrite IH by done. rewrite <- insert_union_l.
    by rewrite insert_union_r by by apply not_elem_of_list_to_map_1.
Qed.

(** Whatever the order in which the pairs of [data] are assigned, the
    outcome is [data]. *)
Lemma inserts_map_to_list l (data : gmap string string) :
  l ≡ₚ map_to_list data → inserts l ∅ = data.
Proof.
  intros Hl.
  assert (NoDup l.*1) by (rewrite Hl; apply NoDup_fst_map_to_list).
  rewrite inserts_union, (right_id_L ∅ (∪)) by done.
  rewrite (list_to_map_proper _ _ ltac:(done) Hl).
  apply list_to_map_to_list.
Qed.

Lemma inserts_size l :
  NoDup l.*1 → size (inserts l ∅) = length l.
Proof.
  intros. rewrite inserts_union, (right_id_L ∅ (∪)) by done.
  by apply map_size_list_to_map.
Qed.

(** One turn of the loop of [From] does what [Put] does. *)
Lemma From_body_Put ht k v σ l d :
  ht !! Z.to_nat (shardIndex k) = Some (Some l) →
  σ !! l = Some (mkShard RWMutex.zero (Some d)) →
  From_body ht (k, v) tt σ = Put ht k v σ.
Proof.
  intros Hl Hσ. rewrite (Put_run _ _ _ _ _ Hl Hσ). unfold From_body.
  erewrite bind_run by by eapply getShard_run.
  erewrite bind_run by by apply with_mutex_run.
  erewrite bind_run by (by eapply shard_assign_run; [apply lookup_insert_eq|]).
  unfold shard_Unlock. erewrite with_mutex_run;
    [|apply lookup_insert_eq|done].
  by rewrite !insert_insert_eq.
Qed.

Lemma From_loop h l : ∀ σ m,
  repr h σ m →
  ∃ σ', forM l (From_body h) tt σ = Ok (tt, σ') ∧ repr h σ' (inserts l m).
Proof.
  induction l as [|[k v] l IH]; intros σ m Hr.
  - by exists σ.
  - destruct (repr_ready _ _ _ k Hr) as (a & Ha & Hσ).
    destruct (repr_Put _ _ _ Hr k v) as (σ1 & Hput & Hr1).
    cbn [forM]. erewrite bind_run.
    2:{ by rewrite (From_body_Put _ _ _ _ _ _ Ha Hσ). }
    by apply IH.
Qed.

(** [From] always returns, in whichever order [range] walks [data], and
    the table stands for [data]. *)
Lemma From_range_repr l (data : gmap string string) σ0 :
  l ≡ₚ map_to_list data →
  ∃ h σ, From_range l σ0 = Ok (h, σ) ∧ repr h σ data.
Proof.
  intros Hl. destruct (New_repr σ0) as (h & σ1 & Hnew & Hr & _).
  destruct (From_loop h l _ _ Hr) as (σ & Hloop & Hr').
  exists h, σ. unfold From_range.
  erewrite bind_run by done. erewrite bind_run by done.
  split; [done|]. by rewrite <- (inserts_map_to_list l data).
Qed.

Lemma Put_all_repr h l : ∀ σ m,
  repr h σ m →
  ∃ σ', Put_all h l σ = Ok (tt, σ') ∧ repr h σ' (inserts l m).
Proof.
  unfold Put_all.
  induction l as [|[k v] l IH]; intros σ m Hr.
  - by exists σ.
  - destruct (repr_Put _ _ _ Hr k v) as (σ1 & Hput & Hr1).
    cbn [forM]. erewrite bind_run by done. by apply IH.
Qed.

(** ** Reachable containers *)

Lemma reachable_repr h σ : reachable h σ → ∃ m, repr h σ m.
Proof.
  induction 1 as
    [σ0 h σ Hnew | data l σ0 h σ Hl Hfrom
    | h σ k v u σ' _ [m Hr] Hrun | h σ k v b σ' _ [m Hr] Hrun
    | h σ k r σ' _ [m Hr] Hrun | h σ k r σ' _ [m Hr] Hrun
    | h σ k b σ' _ [m Hr] Hrun | h σ n σ' _ [m Hr] Hrun].
  - destruct (New_repr σ0) as (h' & σ' & Hrun & Hr & _).
    exists ∅. congruence.
  - destruct (From_range_repr l data σ0 Hl) as (h' & σ' & Hrun & Hr).
    exists data. congruence.
  - destruct (repr_Put _ _ _ Hr k v) as (σ1 & Hrun1 & Hr1).
    eexists. by replace σ' with σ1 by congruence.
  - destruct (repr_PutIfNotExist _ _ _ Hr k v) as (σ1 & Hrun1 & Hr1).
    eexists. by replace σ' with σ1 by congruence.
  - destruct (repr_Del _ _ _ Hr k) as (σ1 & Hrun1 & Hr1).
    eexists. by replace σ' with σ1 by congruence.
  - rewrite (repr_Get _ _ _ Hr) in Hrun. exists m. congruence.
  - rewrite (repr_Has _ _ _ Hr) in Hrun. exists m. congruence.
  - destruct (repr_Len_total _ _ _ Hr) as (n' & Hrun').
    exists m. congruence.
Qed.

(** * The properties *)

(** ** Put then Get *)

(** C1. For every key [k] and value [v] and every state: whenever
    [Put(k, v)] returns, the [Get(k)] that follows returns [(v, true)]; and
    on every state of a container [Put(k, v)] does return. *)
Theorem Put_Get h σ k v :
  (∀ u σ', Put h k v σ = Ok (u, σ') → Get h k σ' = Ok ((v, true), σ'))
  ∧ (reachable h σ →
     ∃ σ', Put h k v σ = Ok (tt, σ') ∧ Get h k σ' = Ok ((v, true), σ')).
Proof.
  assert (∀ u σ', Put h k v σ = Ok (u, σ') →
                  Get h k σ' = Ok ((v, true), σ')) as Hget.
  { intros u σ' (l & d & Hl & Hσ & ->)%Put_inv.
    erewrite Get_run; [|done|apply lookup_insert_eq].
    unfold mapaccess. simpl. by rewrite lookup_insert_eq. }
  split; [exact Hget|].
  intros [m Hr]%reachable_repr.
  destruct (repr_Put _ _ _ Hr k v) as (σ' & Hput & _).
  exists σ'. split; [done|]. by eapply Hget.
Qed.

Lemma Put_Get_witness :
  reachable fresh_table.1 fresh_table.2
  ∧ Put fresh_table.1 "a" "b" fresh_table.2 = Ok (tt, one_entry_heap_a)
  ∧ Get fresh_table.1 "a" one_entry_heap_a = Ok (("b", true), one_entry_heap_a)
  ∧ ∃ σ', Put fresh_table.1 "a" "b" fresh_table.2 = Ok (tt, σ')
        ∧ Get fresh_table.1 "a" σ' = Ok (("b", true), σ').
Proof.
  assert (reachable fresh_table.1 fresh_table.2) as Hreach.
  { apply (reach_New ∅). vm_compute. reflexivity. }
  assert (Put fresh_table.1 "a" "b" fresh_table.2 = Ok (tt, one_entry_heap_a))
    as Hput.
  { vm_compute. reflexivity. }
  destruct (Put_Get fresh_table.1 fresh_table.2 "a" "b") as [Hany Hcont].
  split; [exact Hreach|]. split; [exact Hput|].
  split; [exact (Hany tt one_entry_heap_a Hput)|].
  exact (Hcont Hreach).
Defined.

(** ** PutIfNotExist *)

(** C2. On every container state, [PutIfNotExist(k, v)] returns [true]
    exactly when [k] was absent; it then leaves the state that [Put(k, v)]
    would leave, and otherwise leaves the state as it was.  Starting with
    [k] absent, the first [PutIfNotExist(k, v1)] returns [true] and stores
    [v1], and a second [PutIfNotExist(k, v2)] returns [false] and [k] still
    maps to [v1]. *)
Theorem PutIfNotExist_spec h σ k v1 v2 :
  reachable h σ →
  (∃ b σ1,
      PutIfNotExist h k v1 σ = Ok (b, σ1)
      ∧ Has h k σ = Ok (negb b, σ)
      ∧ (b = true → Put h k v1 σ = Ok (tt, σ1))
      ∧ (b = false → σ1 = σ))
  ∧ (Has h k σ = Ok (false, σ) →
     ∃ σ1,
       PutIfNotExist h k v1 σ = Ok (true, σ1)
       ∧ Get h k σ1 = Ok ((v1, true), σ1)
       ∧ PutIfNotExist h k v2 σ1 = Ok (false, σ1)
       ∧ Get h k σ1 = Ok ((v1, true), σ1)).
Proof.
  intros [m Hr]%reachable_repr.
  destruct (repr_ready _ _ _ k Hr) as (l & Hl & Hσ).
  pose proof (PutIfNotExist_run _ _ _ _ _ Hl Hσ v1) as Hrun.
  pose proof (Put_run _ _ _ _ _ Hl Hσ v1) as Hput.
  pose proof (repr_Has _ _ _ Hr k) as Hhas.
  rewrite routed_lookup in Hrun. split.
  - destruct (m !! k) as [w|] eqn:Hk.
    + exists false, σ. by rewrite Hhas, bool_decide_eq_true_2.
    + eexists true, _. rewrite Hhas, bool_decide_eq_false_2 by by intros [].
      by split_and!.
  - intros Habs. rewrite Hhas in Habs.
    destruct (m !! k) as [w|] eqn:Hk.
    { rewrite bool_decide_eq_true_2 in Habs by done. by simplify_eq. }
    destruct (repr_PutIfNotExist _ _ _ Hr k v1) as (σ1 & Hrun1 & Hr1).
    rewrite Hk in Hrun1, Hr1. rewrite bool_decide_eq_true_2 in Hrun1 by done.
    exists σ1.
    destruct (repr_PutIfNotExist _ _ _ Hr1 k v2) as (σ2 & Hrun2 & _).
    rewrite lookup_insert_eq in Hrun2.
    rewrite bool_decide_eq_false_2 in Hrun2 by done.
    pose proof (PutIfNotExist_inv _ _ _ _ _ _ Hrun2) as (_ & _ & _ & _ & _ & -> & _).
    by rewrite (repr_Get _ _ _ Hr1), lookup_insert_eq.
Qed.

Lemma PutIfNotExist_spec_witness :
  reachable fresh_table.1 fresh_table.2
  ∧ Has fresh_table.1 "k" fresh_table.2 = Ok (false, fresh_table.2)
  ∧ ∃ σ1,
      PutIfNotExist fresh_table.1 "k" "v1" fresh_table.2 = Ok (true, σ1)
      ∧ Get fresh_table.1 "k" σ1 = Ok (("v1", true), σ1)
      ∧ PutIfNotExist fresh_table.1 "k" "v2" σ1 = Ok (false, σ1)
      ∧ Get fresh_table.1 "k" σ1 = Ok (("v1", true), σ1).
Proof.
  assert (reachable fresh_table.1 fresh_table.2) as Hreach.
  { apply (reach_New ∅). vm_compute. reflexivity. }
  assert (Has fresh_table.1 "k" fresh_table.2 = Ok (false, fresh_table.2))
    as Habsent.
  { vm_compute. reflexivity. }
  split; [exact Hreach|]. split; [exact Habsent|].
  exact (proj2 (PutIfNotExist_spec fresh_table.1 fresh_table.2 "k" "v1" "v2"
                  Hreach) Habsent).
Defined.

(** ** Del *)

(** C3. On every container state: when [k] is present with value [w],
    [Del(k)] returns [(w, true)] and [Has(k)] is false afterwards; when [k]
    is absent, [Del(k)] returns the empty string and [false] and the state
    is what it was. *)
Theorem Del_spec h σ k :
  reachable h σ →
  (∀ w, Get h k σ = Ok ((w, true), σ) →
     ∃ σ', Del h k σ = Ok ((w, true), σ') ∧ Has h k σ' = Ok (false, σ'))
  ∧ (Has h k σ = Ok (false, σ) →
     Del h k σ = Ok ((EmptyString, false), σ)).
Proof.
  intros [m Hr]%reachable_repr. split.
  - intros w Hget. rewrite (repr_Get _ _ _ Hr) in Hget.
    destruct (repr_Del _ _ _ Hr k) as (σ' & Hdel & Hr').
    exists σ'. destruct (m !! k) as [w'|]; simplify_eq/=.
    split; [done|]. rewrite (repr_Has _ _ _ Hr'), lookup_delete_eq.
    by rewrite bool_decide_eq_false_2 by by intros [].
  - intros Hhas. rewrite (repr_Has _ _ _ Hr) in Hhas.
    destruct (repr_ready _ _ _ k Hr) as (l & Hl & Hσ).
    rewrite (Del_run _ _ _ _ _ Hl Hσ). unfold mapaccess. simpl.
    rewrite routed_lookup.
    destruct (m !! k) as [w|] eqn:Hk.
    { rewrite bool_decide_eq_true_2 in Hhas by done. by simplify_eq. }
    rewrite delete_id by by rewrite routed_lookup.
    by rewrite insert_id.
Qed.

Lemma Del_spec_witness :
  reachable fresh_table.1 one_entry_heap
  ∧ Get fresh_table.1 "k" one_entry_heap = Ok (("w", true), one_entry_heap)
  ∧ (∃ σ', Del fresh_table.1 "k" one_entry_heap = Ok (("w", true), σ')
         ∧ Has fresh_table.1 "k" σ' = Ok (false, σ'))
  ∧ Has fresh_table.1 "absent" one_entry_heap = Ok (false, one_entry_heap)
  ∧ Del fresh_table.1 "absent" one_entry_heap
    = Ok ((EmptyString, false), one_entry_heap).
Proof.
  assert (reachable fresh_table.1 one_entry_heap) as Hreach.
  { apply (reach_Put fresh_table.1 fresh_table.2 "k" "w" tt).
    - apply (reach_New ∅). vm_compute. reflexivity.
    - vm_compute. reflexivity. }
  assert (Get fresh_table.1 "k" one_entry_heap
          = Ok (("w", true), one_entry_heap)) as Hget.
  { vm_compute. reflexivity. }
  assert (Has fresh_table.1 "absent" one_entry_heap
          = Ok (false, one_entry_heap)) as Hhas.
  { vm_compute. reflexivity. }
  pose proof (Del_spec fresh_table.1 one_entry_heap "k" Hreach)
    as [Hpresent _].
  pose proof (Del_spec fresh_table.1 one_entry_heap "absent" Hreach)
    as [_ Habsent].
  split; [exact Hreach|]. split; [exact Hget|].
  split; [exact (Hpresent "w" Hget)|]. split; [exact Hhas|].
  exact (Habsent Hhas).
Defined.

(** ** The key router *)

(** C4. For every key, the empty one included, [fnv32] is the 32-bit hash
    that starts from 2166136261 and, for each byte in order, multiplies by
    16777619 with 32-bit wrap-around and then XORs the byte; [getShard]
    indexes the table at that hash modulo the shard count, computed on
    unsigned values, which lies in [0, 32). *)
Theorem router_spec key :
  fnv32 key = spec_hash key
  ∧ fnv32 EmptyString = 2166136261%Z
  ∧ (0 ≤ fnv32 key < 2 ^ 32)%Z
  ∧ Int.to_uint (fnv32 key) = fnv32 key
  ∧ shardIndex key = spec_shard_index key
  ∧ (0 ≤ shardIndex key < 32)%Z
  ∧ ∀ h, getShard h key = index h (spec_shard_index key).
Proof.
  assert (shardIndex key = spec_shard_index key) as Hidx.
  { rewrite shardIndex_eq. unfold spec_shard_index, fnv32, spec_hash.
    by rewrite fnv32_loop_spec. }
  split; [apply fnv32_loop_spec|].
  split; [reflexivity|].
  split; [apply fnv32_range|].
  split; [apply to_uint_fnv32|].
  split; [exact Hidx|].
  split; [apply shardIndex_range|].
  intros h. unfold getShard. by rewrite Hidx.
Qed.

(** Two keys run by hand: the single byte 97 and the empty key. *)
Example fnv32_a : fnv32 "a" = 84696446%Z ∧ shardIndex "a" = 30%Z.
Proof. split; reflexivity. Qed.

Example shardIndex_empty : shardIndex EmptyString = 5%Z.
Proof. reflexivity. Qed.

(** ** The empty container *)

(** C6. For every key [k], on the container that [New] returns, [Get(k)]
    returns the empty string with [false] and [Has(k)] returns [false]. *)
Theorem New_empty σ0 k :
  ∃ h σ, New σ0 = Ok (h, σ)
       ∧ Get h k σ = Ok ((EmptyString, false), σ)
       ∧ Has h k σ = Ok (false, σ).
Proof.
  destruct (New_repr σ0) as (h & σ & Hnew & Hr & _).
  exists h, σ. split_and!; [done| |].
  - by rewrite (repr_Get _ _ _ Hr), lookup_empty.
  - rewrite (repr_Has _ _ _ Hr), lookup_empty.
    by rewrite bool_decide_eq_false_2 by by intros [].
Qed.

(** ** From and Len *)

Lemma inserts_dom l : ∀ m : gmap string string,
  dom (inserts l m) = list_to_set l.*1 ∪ dom m.
Proof.
  unfold inserts.
  induction l as [|[k v] l IH]; intros m; simpl.
  - by rewrite (left_id_L ∅ (∪)).
  - rewrite IH, dom_insert_L.
    by rewrite (assoc_L (∪)), (comm_L (∪) (list_to_set l.*1) {[k]}).
Qed.

Lemma size_list_to_set_le (ks : list string) :
  size (list_to_set ks : gset string) ≤ length ks.
Proof.
  induction ks as [|a ks IH].
  - by rewrite list_to_set_nil, size_empty.
  - rewrite list_to_set_cons, size_union_alt, size_singleton.
    assert (size (list_to_set ks ∖ {[a]} : gset string)
            ≤ size (list_to_set ks : gset string))
      by apply subseteq_size, subseteq_difference_l, reflexivity.
    simpl. lia.
Qed.

(** The size of the map after the insertions is the number of distinct
    keys inserted. *)
Lemma inserts_size_distinct l :
  size (inserts l ∅) = size (list_to_set l.*1 : gset string).
Proof.
  rewrite <- size_dom, inserts_dom, dom_empty_L. by rewrite (right_id_L ∅ (∪)).
Qed.

(** C5. For a map [data] with K distinct keys, [From(data)] returns, in
    whichever order [l] the pairs of [data] are visited, a container on
    which [Len()] returns K and [Get(k)] returns [(data[k], true)] for every
    key of [data].  After [Put] of the pairs [kvs] into the container of
    [New()], [Len()] returns the number of distinct keys of [kvs], which is
    the length of [kvs] when its keys are pairwise distinct.  The counts are
    those that fit in an [int]. *)
Theorem From_Len_spec (data : gmap string string) l kvs σ0 :
  (l ≡ₚ map_to_list data →
   (Z.of_nat (size data) ≤ Int.max_int)%Z →
   ∃ h σ,
     From_range l σ0 = Ok (h, σ)
     ∧ Len h σ = Ok (Z.of_nat (size data), σ)
     ∧ ∀ k v, data !! k = Some v → Get h k σ = Ok ((v, true), σ))
  ∧ ((Z.of_nat (length kvs) ≤ Int.max_int)%Z →
     ∃ h σ1 σ2,
       New σ0 = Ok (h, σ1)
       ∧ Put_all h kvs σ1 = Ok (tt, σ2)
       ∧ Len h σ2
         = Ok (Z.of_nat (size (list_to_set kvs.*1 : gset string)), σ2)
       ∧ (NoDup kvs.*1 → Len h σ2 = Ok (Z.of_nat (length kvs), σ2))).
Proof.
  split.
  - intros Hl Hmax.
    destruct (From_range_repr l data σ0 Hl) as (h & σ & Hrun & Hr).
    exists h, σ. split_and!; [done|by apply repr_Len|].
    intros k v Hk. by rewrite (repr_Get _ _ _ Hr), Hk.
  - intros Hmax.
    destruct (New_repr σ0) as (h & σ1 & Hnew & Hr & _).
    destruct (Put_all_repr h kvs _ _ Hr) as (σ2 & Hput & Hr2).
    exists h, σ1, σ2.
    assert (size (inserts kvs ∅) ≤ length kvs) as Hle.
    { rewrite inserts_size_distinct, <- (length_fmap fst kvs).
      apply size_list_to_set_le. }
    assert (Len h σ2 = Ok (Z.of_nat (size (inserts kvs ∅)), σ2)) as Hlen.
    { apply repr_Len; [done|lia]. }
    split_and!; [done|done| |].
    + by rewrite <- inserts_size_distinct.
    + intros Hnd. by rewrite <- (inserts_size kvs Hnd).
Qed.

Lemma From_Len_spec_witness :
  reverse (map_to_list ({["a" := "1"; "b" := "2"]} : gmap string string))
    ≡ₚ map_to_list ({["a" := "1"; "b" := "2"]} : gmap string string)
  ∧ (Z.of_nat (size ({["a" := "1"; "b" := "2"]} : gmap string string))
     ≤ Int.max_int)%Z
  ∧ (Z.of_nat (length [("x", "1"); ("y", "2"); ("z", "3")]) ≤ Int.max_int)%Z
  ∧ NoDup [("x", "1"); ("y", "2"); ("z", "3")].*1
  ∧ (∃ h σ,
       From_range
         (reverse (map_to_list ({["a" := "1"; "b" := "2"]}
                                : gmap string string))) ∅
       = Ok (h, σ)
       ∧ Len h σ = Ok (2%Z, σ)
       ∧ Get h "a" σ = Ok (("1", true), σ)
       ∧ Get h "b" σ = Ok (("2", true), σ))
  ∧ (∃ h σ1 σ2,
       New ∅ = Ok (h, σ1)
       ∧ Put_all h [("x", "1"); ("y", "2"); ("z", "3")] σ1 = Ok (tt, σ2)
       ∧ Len h σ2 = Ok (3%Z, σ2)).
Proof.
  set (data := ({["a" := "1"; "b" := "2"]} : gmap string string)).
  set (kvs := [("x", "1"); ("y", "2"); ("z", "3")]).
  assert (reverse (map_to_list data) ≡ₚ map_to_list data) as Hperm
    by apply reverse_Permutation.
  assert (Z.of_nat (size data) ≤ Int.max_int)%Z as Hmax1.
  { vm_compute. intros H. discriminate H. }
  assert (Z.of_nat (length kvs) ≤ Int.max_int)%Z as Hmax2.
  { vm_compute. intros H. discriminate H. }
  assert (NoDup kvs.*1) as Hnd.
  { apply (bool_decide_unpack _). vm_compute. exact I. }
  destruct (From_Len_spec data (reverse (map_to_list data)) kvs ∅)
    as [Hfrom Hnew].
  split; [exact Hperm|]. split; [exact Hmax1|]. split; [exact Hmax2|].
  split; [exact Hnd|]. split.
  - destruct (Hfrom Hperm Hmax1) as (h & σ & Hrun & Hlen & Hget).
    exists h, σ. split; [exact Hrun|]. split; [exact Hlen|].
    split; apply Hget; reflexivity.
  - destruct (Hnew Hmax2) as (h & σ1 & σ2 & Hrun & Hput & _ & Hlen).
    exists h, σ1, σ2. split; [exact Hrun|]. split; [exact Hput|].
    exact (Hlen Hnd).
Defined.

(** ** Totality *)

(** C7. [New] and [From] return for every heap and every input map, and on
    a container they made every method returns for every key and value:
    none panics and none blocks.  Whether the key is there is told by the
    flag of the result alone: there is an optional value [o] for the key
    such that [Get] and [Del] return [found o] and [Has] returns whether
    [o] is a value. *)
Theorem operations_total h σ k v (data : gmap string string) l σ0 :
  (∃ h0 σ1, New σ0 = Ok (h0, σ1))
  ∧ (l ≡ₚ map_to_list data → ∃ h0 σ1, From_range l σ0 = Ok (h0, σ1))
  ∧ (∃ h0 σ1, From data σ0 = Ok (h0, σ1))
  ∧ (reachable h σ →
     ∃ o,
       Get h k σ = Ok (found o, σ)
       ∧ Has h k σ = Ok (bool_decide (is_Some o), σ)
       ∧ (∃ σ', Del h k σ = Ok (found o, σ'))
       ∧ (∃ σ', Put h k v σ = Ok (tt, σ'))
       ∧ (∃ σ', PutIfNotExist h k v σ = Ok (bool_decide (o = None), σ'))
       ∧ (∃ n, Len h σ = Ok (n, σ))).
Proof.
  split.
  { destruct (New_repr σ0) as (h0 & σ1 & ? & _). eauto. }
  split.
  { intros Hl. destruct (From_range_repr l data σ0 Hl) as (h0 & σ1 & ? & _).
    eauto. }
  split.
  { destruct (From_range_repr (map_to_list data) data σ0 (reflexivity _))
      as (h0 & σ1 & ? & _). eauto. }
  intros [m Hr]%reachable_repr. exists (m !! k).
  destruct (repr_Del _ _ _ Hr k) as (σd & Hdel & _).
  destruct (repr_Put _ _ _ Hr k v) as (σp & Hput & _).
  destruct (repr_PutIfNotExist _ _ _ Hr k v) as (σq & Hpine & _).
  split; [by apply repr_Get|]. split; [by apply repr_Has|].
  split; [by exists σd|]. split; [by exists σp|]. split; [by exists σq|].
  by eapply repr_Len_total.
Qed.

Lemma operations_total_witness :
  map_to_list ({["k" := "w"]} : gmap string string)
    ≡ₚ map_to_list ({["k" := "w"]} : gmap string string)
  ∧ reachable fresh_table.1 one_entry_heap
  ∧ (∃ h0 σ1,
       From_range (map_to_list ({["k" := "w"]} : gmap string string)) ∅
       = Ok (h0, σ1))
  ∧ (∃ o,
       Get fresh_table.1 raw_key one_entry_heap
       = Ok (found o, one_entry_heap)
       ∧ Has fresh_table.1 raw_key one_entry_heap
         = Ok (bool_decide (is_Some o), one_entry_heap)
       ∧ (∃ σ', Del fresh_table.1 raw_key one_entry_heap
                = Ok (found o, σ'))
       ∧ (∃ σ', Put fresh_table.1 raw_key EmptyString one_entry_heap
                = Ok (tt, σ'))
       ∧ (∃ σ', PutIfNotExist fresh_table.1 raw_key EmptyString
                  one_entry_heap
                = Ok (bool_decide (o = None), σ'))
       ∧ (∃ n, Len fresh_table.1 one_entry_heap = Ok (n, one_entry_heap))).
Proof.
  assert (reachable fresh_table.1 one_entry_heap) as Hreach.
  { apply (reach_Put fresh_table.1 fresh_table.2 "k" "w" tt).
    - apply (reach_New ∅). vm_compute. reflexivity.
    - vm_compute. reflexivity. }
  destruct (operations_total fresh_table.1 one_entry_heap raw_key
              EmptyString {["k" := "w"]}
              (map_to_list ({["k" := "w"]} : gmap string string)) ∅)
    as (_ & Hfrom & _ & Hops).
  split; [reflexivity|]. split; [exact Hreach|].
  split; [exact (Hfrom (reflexivity _))|].
  exact (Hops Hreach).
Defined.

(** ** Idempotence of Put *)

Lemma Put_again h σ k v u σ1 :
  Put h k v σ = Ok (u, σ1) → Put h k v σ1 = Ok (tt, σ1).
Proof.
  intros (l & d & Hl & Hσ & ->)%Put_inv.
  erewrite Put_run; [|done|apply lookup_insert_eq].
  by rewrite insert_insert_eq, insert_insert_eq.
Qed.

(** C8. For every key, value and state, [Put(k, v)] run twice in a row
    ends as [Put(k, v)] run once does, in the same heap; on a container
    state the one run returns, and running it again changes nothing. *)
Theorem Put_idempotent h σ k v :
  (Put h k v;; Put h k v) σ = Put h k v σ
  ∧ (reachable h σ →
     ∃ σ1, Put h k v σ = Ok (tt, σ1) ∧ Put h k v σ1 = Ok (tt, σ1)).
Proof.
  split.
  - unfold mbind, M_bind.
    destruct (Put h k v σ) as [[[] σ1]| |] eqn:Hput; [|done..].
    by apply Put_again in Hput.
  - intros [m Hr]%reachable_repr.
    destruct (repr_Put _ _ _ Hr k v) as (σ1 & Hput & _).
    exists σ1. split; [done|]. by apply Put_again in Hput.
Qed.

Lemma Put_idempotent_witness :
  reachable fresh_table.1 fresh_table.2
  ∧ (Put fresh_table.1 "k" "w";; Put fresh_table.1 "k" "w") fresh_table.2
    = Put fresh_table.1 "k" "w" fresh_table.2
  ∧ ∃ σ1, Put fresh_table.1 "k" "w" fresh_table.2 = Ok (tt, σ1)
        ∧ Put fresh_table.1 "k" "w" σ1 = Ok (tt, σ1).
Proof.
  assert (reachable fresh_table.1 fresh_table.2) as Hreach.
  { apply (reach_New ∅). vm_compute. reflexivity. }
  destruct (Put_idempotent fresh_table.1 fresh_table.2 "k" "w")
    as [Htwice Honce].
  split; [exact Hreach|]. split; [exact Htwice|]. exact (Honce Hreach).
Defined.

(** ** Frame *)

(** C9. Whenever a keyed method returns, the heap it leaves differs from
    the one it found at most at the address of the shard that the router
    picks for the key, and [Get] and [Has] leave the heap as they found it.
    On every container state each keyed method does return, and every slot
    of the table other than the routed one still holds what it held. *)
Theorem operations_frame h σ k v :
  (∀ r σ', Get h k σ = Ok (r, σ') → σ' = σ)
  ∧ (∀ b σ', Has h k σ = Ok (b, σ') → σ' = σ)
  ∧ (∀ u σ', Put h k v σ = Ok (u, σ') → only_routed_address h k σ σ')
  ∧ (∀ b σ', PutIfNotExist h k v σ = Ok (b, σ') →
       only_routed_address h k σ σ')
  ∧ (∀ r σ', Del h k σ = Ok (r, σ') → only_routed_address h k σ σ')
  ∧ (reachable h σ →
     (∃ r, Get h k σ = Ok (r, σ))
     ∧ (∃ b, Has h k σ = Ok (b, σ))
     ∧ (∃ σ', Put h k v σ = Ok (tt, σ') ∧ only_routed_shard h k σ σ')
     ∧ (∃ b σ', PutIfNotExist h k v σ = Ok (b, σ')
              ∧ only_routed_shard h k σ σ')
     ∧ (∃ r σ', Del h k σ = Ok (r, σ') ∧ only_routed_shard h k σ σ')).
Proof.
  assert (∀ u σ', Put h k v σ = Ok (u, σ') → only_routed_address h k σ σ')
    as HPut.
  { intros u σ' (l & d & Hl & _ & ->)%Put_inv.
    exists l. split; [done|]. intros l' Hne. by rewrite lookup_insert_ne. }
  assert (∀ b σ', PutIfNotExist h k v σ = Ok (b, σ') →
                  only_routed_address h k σ σ') as HPine.
  { intros b σ' (l & d & Hl & _ & _ & -> & _)%PutIfNotExist_inv.
    exists l. split; [done|]. intros l' Hne.
    destruct b; [by rewrite lookup_insert_ne|done]. }
  assert (∀ r σ', Del h k σ = Ok (r, σ') → only_routed_address h k σ σ')
    as HDel.
  { intros r σ' (l & d & Hl & _ & _ & ->)%Del_inv.
    exists l. split; [done|]. intros l' Hne. by rewrite lookup_insert_ne. }
  split; [by intros r σ' (l & s & _ & _ & _ & _ & ->)%Get_inv|].
  split; [by intros b σ' (l & s & _ & _ & _ & _ & ->)%Has_inv|].
  split; [exact HPut|]. split; [exact HPine|]. split; [exact HDel|].
  intros [m Hr]%reachable_repr.
  assert (∀ σ', only_routed_address h k σ σ' → only_routed_shard h k σ σ')
    as Hslots.
  { intros σ' (l & Hl & Hframe).
    exists l. split; [done|]. split; [done|].
    intros j p Hj Hp. apply Hframe. intros ->.
    pose proof (repr_noalias _ _ _ Hr _ _ _ Hl Hp).
    pose proof (shardIndex_range k). lia. }
  split; [by eexists; apply repr_Get|].
  split; [by eexists; apply repr_Has|].
  split; [|split].
  - destruct (repr_Put _ _ _ Hr k v) as (σ' & Hput & _).
    exists σ'. split; [done|]. by eapply Hslots, HPut.
  - destruct (repr_PutIfNotExist _ _ _ Hr k v) as (σ' & Hrun & _).
    eexists _, σ'. split; [done|]. by eapply Hslots, HPine.
  - destruct (repr_Del _ _ _ Hr k) as (σ' & Hdel & _).
    eexists _, σ'. split; [done|]. by eapply Hslots, HDel.
Qed.

Lemma operations_frame_witness :
  reachable fresh_table.1 one_entry_heap
  ∧ Get fresh_table.1 "k" one_entry_heap = Ok (("w", true), one_entry_heap)
  ∧ Put fresh_table.1 "k" "w" fresh_table.2 = Ok (tt, one_entry_heap)
  ∧ only_routed_address fresh_table.1 "k" fresh_table.2 one_entry_heap
  ∧ (∃ r, Get fresh_table.1 "k" one_entry_heap = Ok (r, one_entry_heap))
  ∧ (∃ b, Has fresh_table.1 "k" one_entry_heap = Ok (b, one_entry_heap))
  ∧ (∃ σ', Put fresh_table.1 "k" "v" one_entry_heap = Ok (tt, σ')
         ∧ only_routed_shard fresh_table.1 "k" one_entry_heap σ')
  ∧ (∃ b σ', PutIfNotExist fresh_table.1 "k" "v" one_entry_heap = Ok (b, σ')
           ∧ only_routed_shard fresh_table.1 "k" one_entry_heap σ')
  ∧ (∃ r σ', Del fresh_table.1 "k" one_entry_heap = Ok (r, σ')
           ∧ only_routed_shard fresh_table.1 "k" one_entry_heap σ').
Proof.
  assert (Put fresh_table.1 "k" "w" fresh_table.2 = Ok (tt, one_entry_heap))
    as Hput.
  { vm_compute. reflexivity. }
  assert (reachable fresh_table.1 one_entry_heap) as Hreach.
  { apply (reach_Put fresh_table.1 fresh_table.2 "k" "w" tt).
    - apply (reach_New ∅). vm_compute. reflexivity.
    - exact Hput. }
  assert (Get fresh_table.1 "k" one_entry_heap
          = Ok (("w", true), one_entry_heap)) as Hget.
  { vm_compute. reflexivity. }
  destruct (operations_frame fresh_table.1 fresh_table.2 "k" "w")
    as (_ & _ & HPut & _).
  destruct (operations_frame fresh_table.1 one_entry_heap "k" "v")
    as (_ & _ & _ & _ & _ & Hcont).
  split; [exact Hreach|]. split; [exact Hget|]. split; [exact Hput|].
  split; [exact (HPut tt one_entry_heap Hput)|].
  exact (Hcont Hreach).
Defined.

(** ** The partition invariant *)

(** C10. In every container reachable from [New()] or [From(m)] through
    the methods, the table has 32 slots, each a non-nil pointer to a shard
    of its own with a non-nil map; a key stored in the shard of slot [i]
    has [uint(fnv32(k)) % 32 = i]; and so no key is stored in two
    shards. *)
Theorem partition_invariant h σ :
  reachable h σ →
  length h = 32
  ∧ (∀ i, i < 32 →
       ∃ l s d, h !! i = Some (Some l) ∧ σ !! l = Some s ∧ Data s = Some d)
  ∧ (∀ i j l, h !! i = Some (Some l) → h !! j = Some (Some l) → i = j)
  ∧ (∀ i k, stored_in h σ i k →
       (Int.to_uint (fnv32 k) mod Int.to_uint 32)%Z = Z.of_nat i)
  ∧ (∀ i j k, stored_in h σ i k → stored_in h σ j k → i = j).
Proof.
  intros [m Hr]%reachable_repr.
  pose proof (repr_length _ _ _ Hr) as Hlen. unfold SHARD_COUNT in Hlen.
  assert (∀ i k, stored_in h σ i k → shardIndex k = Z.of_nat i) as Hpart.
  { intros i k (l & s & d & Hl & Hσ & Hd & [w Hk]).
    apply lookup_lt_Some in Hl as Hi.
    destruct (repr_shard _ _ _ Hr (Z.of_nat i)) as (l' & Hl' & Hσ').
    { unfold SHARD_COUNT. lia. }
    rewrite Nat2Z.id in Hl'. simplify_eq/=.
    by apply routed_lookup_Some in Hk as [_ Hk]. }
  split; [lia|]. split; [|split; [|split]].
  - intros i Hi.
    destruct (repr_shard _ _ _ Hr (Z.of_nat i)) as (l & Hl & Hσ).
    { unfold SHARD_COUNT. lia. }
    rewrite Nat2Z.id in Hl. by eexists l, _, _.
  - apply Hr.
  - exact Hpart.
  - intros i j k Hi Hj. apply Hpart in Hi, Hj. lia.
Qed.

Lemma partition_invariant_witness :
  reachable fresh_table.1 one_entry_heap
  ∧ stored_in fresh_table.1 one_entry_heap 20 "k"
  ∧ length fresh_table.1 = 32
  ∧ (Int.to_uint (fnv32 "k") mod Int.to_uint 32)%Z = 20%Z.
Proof.
  assert (reachable fresh_table.1 one_entry_heap) as Hreach.
  { apply (reach_Put fresh_table.1 fresh_table.2 "k" "w" tt).
    - apply (reach_New ∅). vm_compute. reflexivity.
    - vm_compute. reflexivity. }
  assert (stored_in fresh_table.1 one_entry_heap 20 "k") as Hstored.
  { exists 20, (mkShard RWMutex.zero (Some {["k" := "w"]})), {["k" := "w"]}.
    split; [reflexivity|]. split; [vm_compute; reflexivity|].
    split; [reflexivity|]. exists "w". reflexivity. }
  destruct (partition_invariant fresh_table.1 one_entry_heap Hreach)
    as (Hlen & _ & _ & Hpart & _).
  split; [exact Hreach|]. split; [exact Hstored|]. split; [exact Hlen|].
  exact (Hpart 20 "k" Hstored).
Defined.

(** * Further properties of the methods *)

(** ** Each method in closed form

    What a keyed method does once the routed shard is known: how it goes is
    decided by the mutex and by whether the shard has a map. *)

Ltac locate_cases h key σ :=
  unfold locate; unfold_prims; cbn;
  destruct (decide (0 ≤ shardIndex key < Z.of_nat (length h))%Z); [|done];
  destruct (h !! Z.to_nat (shardIndex key)) as [[?l|]|]; cbn; [|done..];
  destruct (σ !! _) as [[[[] [|?n]] ?d]|] eqn:?; cbn;
  rewrite ?lookup_insert_eq; cbn;
  try done.

Lemma Get_closed h key σ :
  Get h key σ
  = match locate h key σ with
    | Ok (l, s) =>
        if RWMutex.writer (Lock s) then Blocked
        else Ok (mapaccess (Data s) key, σ)
    | Panic e => Panic e
    | Blocked => Blocked
    end.
Proof.
  unfold Get. locate_cases h key σ.
  all: destruct (mapaccess _ _); cbn; rewrite lookup_insert_eq; cbn.
  all: by rewrite insert_insert_eq, insert_id.
Qed.

Lemma Has_closed h key σ :
  Has h key σ
  = match locate h key σ with
    | Ok (l, s) =>
        if RWMutex.writer (Lock s) then Blocked
        else Ok ((mapaccess (Data s) key).2, σ)
    | Panic e => Panic e
    | Blocked => Blocked
    end.
Proof.
  unfold Has. locate_cases h key σ.
  all: destruct (mapaccess _ _); cbn; rewrite lookup_insert_eq; cbn.
  all: by rewrite insert_insert_eq, insert_id.
Qed.

Lemma Put_closed h key value σ :
  Put h key value σ
  = match locate h key σ with
    | Ok (l, s) =>
        match RWMutex.Lock (Lock s) with
        | Ok _ =>
            match Data s with
            | Some d =>
                Ok (tt, <[l:=mkShard RWMutex.zero
                               (Some (<[key:=value]> d))]> σ)
            | None => Panic NilMapAssignment
            end
        | Panic e => Panic e
        | Blocked => Blocked
        end
    | Panic e => Panic e
    | Blocked => Blocked
    end.
Proof.
  unfold Put. locate_cases h key σ.
  all: destruct d; cbn; rewrite ?lookup_insert_eq; cbn; [|done].
  all: by rewrite !insert_insert_eq.
Qed.

Lemma Del_closed h key σ :
  Del h key σ
  = match locate h key σ with
    | Ok (l, s) =>
        match RWMutex.Lock (Lock s) with
        | Ok _ =>
            Ok (mapaccess (Data s) key,
                <[l:=mkShard RWMutex.zero (mapdelete (Data s) key)]> σ)
        | Panic e => Panic e
        | Blocked => Blocked
        end
    | Panic e => Panic e
    | Blocked => Blocked
    end.
Proof.
  unfold Del. locate_cases h key σ.
  all: destruct (mapaccess _ _); cbn; rewrite ?lookup_insert_eq; cbn.
  all: rewrite ?lookup_insert_eq; cbn.
  all: by rewrite !insert_insert_eq.
Qed.

Lemma PutIfNotExist_closed h key value σ :
  PutIfNotExist h key value σ
  = match locate h key σ with
    | Ok (l, s) =>
        match RWMutex.Lock (Lock s) with
        | Ok _ =>
            if (mapaccess (Data s) key).2 then Ok (false, σ)
            else
              match Data s with
              | Some d =>
                  Ok (true, <[l:=mkShard RWMutex.zero
                                   (Some (<[key:=value]> d))]> σ)
              | None => Panic NilMapAssignment
              end
        | Panic e => Panic e
        | Blocked => Blocked
        end
    | Panic e => Panic e
    | Blocked => Blocked
    end.
Proof.
  unfold PutIfNotExist. locate_cases h key σ.
  all: destruct d as [d|]; unfold mapaccess; cbn; [destruct (d !! key)|]; cbn.
  all: rewrite ?lookup_insert_eq; cbn; rewrite ?lookup_insert_eq; cbn.
  all: rewrite ?insert_insert_eq; try done.
  by rewrite insert_id.
Qed.


Lemma locate_inv h key σ l s :
  locate h key σ = Ok (l, s) →
  h !! Z.to_nat (shardIndex key) = Some (Some l) ∧ σ !! l = Some s.
Proof.
  unfold locate. intros H. repeat case_match; by simplify_eq.
Qed.

Lemma locate_run h key σ l s :
  h !! Z.to_nat (shardIndex key) = Some (Some l) → σ !! l = Some s →
  locate h key σ = Ok (l, s).
Proof.
  intros Hl Hs. unfold locate. pose proof (shardIndex_range key).
  apply lookup_lt_Some in Hl as Hlt.
  rewrite decide_True by lia. by rewrite Hl, Hs.
Qed.

Lemma locate_insert h key σ l s s' :
  locate h key σ = Ok (l, s) → locate h key (<[l:=s']> σ) = Ok (l, s').
Proof.
  intros [Hl _]%locate_inv. apply locate_run; [done|apply lookup_insert_eq].
Qed.

Lemma locate_repr h σ m key :
  repr h σ m →
  ∃ l, locate h key σ
       = Ok (l, mkShard RWMutex.zero (Some (routed (shardIndex key) m))).
Proof.
  intros (l & Hl & Hσ)%(repr_ready _ _ _ key). exists l. by apply locate_run.
Qed.

(** ** How the methods compose *)

(** X1. [Has(k)] is the flag of [Get(k)], however the call goes; and a
    [Get] that reports the key missing returns the empty string. *)
Theorem Has_is_Get_flag h k σ :
  Has h k σ
  = match Get h k σ with
    | Ok (r, σ') => Ok (r.2, σ')
    | Panic e => Panic e
    | Blocked => Blocked
    end
  ∧ ∀ v σ', Get h k σ = Ok ((v, false), σ') → v = EmptyString.
Proof.
  split.
  - rewrite Has_closed, Get_closed.
    destruct (locate h k σ) as [[l s]| |]; [|done..].
    by destruct (RWMutex.writer (Lock s)).
  - intros v σ' (l & s & _ & _ & _ & Hr & _)%Get_inv.
    unfold mapaccess in Hr. case_match; by simplify_eq.
Qed.

Lemma Has_is_Get_flag_witness :
  Get fresh_table.1 "absent" one_entry_heap
  = Ok ((EmptyString, false), one_entry_heap)
  ∧ Has fresh_table.1 "absent" one_entry_heap
    = match Get fresh_table.1 "absent" one_entry_heap with
      | Ok (r, σ') => Ok (r.2, σ')
      | Panic e => Panic e
      | Blocked => Blocked
      end
  ∧ EmptyString = EmptyString.
Proof.
  assert (Get fresh_table.1 "absent" one_entry_heap
          = Ok ((EmptyString, false), one_entry_heap)) as Hget
    by (vm_compute; reflexivity).
  destruct (Has_is_Get_flag fresh_table.1 "absent" one_entry_heap)
    as [Hhas Hzero].
  split; [exact Hget|]. split; [exact Hhas|].
  exact (Hzero _ _ Hget).
Defined.

(** X2. [Put(k, v1)] followed by [Put(k, v2)] ends as [Put(k, v2)] alone
    does, in the same heap and with the same failure if there is one: the
    last write wins.  On a container state the calls return and [Get(k)]
    then gives [v2]. *)
Theorem Put_overwrite h σ k v1 v2 :
  (Put h k v1;; Put h k v2) σ = Put h k v2 σ
  ∧ (reachable h σ →
     ∃ σ2, (Put h k v1;; Put h k v2) σ = Ok (tt, σ2)
         ∧ Get h k σ2 = Ok ((v2, true), σ2)).
Proof.
  assert ((Put h k v1;; Put h k v2) σ = Put h k v2 σ) as Heq.
  { unfold mbind, M_bind. rewrite !Put_closed.
    destruct (locate h k σ) as [[l [m d]]| |] eqn:Hloc; [|done..].
    destruct (RWMutex.Lock m) as [m'| |] eqn:Hm; cbn; rewrite Hm; [|done..].
    destruct d as [d|]; cbn; [|done].
    rewrite Put_closed, (locate_insert _ _ _ _ _ _ Hloc). cbn.
    by rewrite insert_insert_eq, insert_insert_eq. }
  split; [exact Heq|].
  intros [m Hr]%reachable_repr. rewrite Heq.
  destruct (repr_Put _ _ _ Hr k v2) as (σ2 & Hput & Hr2).
  exists σ2. split; [done|].
  by rewrite (repr_Get _ _ _ Hr2), lookup_insert_eq.
Qed.

Lemma Put_overwrite_witness :
  reachable fresh_table.1 one_entry_heap
  ∧ ∃ σ2, (Put fresh_table.1 "k" "x";; Put fresh_table.1 "k" "y")
            one_entry_heap = Ok (tt, σ2)
        ∧ Get fresh_table.1 "k" σ2 = Ok (("y", true), σ2).
Proof.
  assert (reachable fresh_table.1 one_entry_heap) as Hreach.
  { apply (reach_Put fresh_table.1 fresh_table.2 "k" "w" tt).
    - apply (reach_New ∅). vm_compute. reflexivity.
    - vm_compute. reflexivity. }
  split; [exact Hreach|].
  exact (proj2 (Put_overwrite fresh_table.1 one_entry_heap "k" "x" "y")
           Hreach).
Defined.


(** X3. Once [Del(k)] has returned, the key is gone: [Get(k)] reports it
    missing, and a second [Del(k)] returns the empty string with [false]
    and leaves the heap as the first one left it. *)
Theorem Del_then_absent h σ k r σ1 :
  Del h k σ = Ok (r, σ1) →
  Get h k σ1 = Ok ((EmptyString, false), σ1)
  ∧ Has h k σ1 = Ok (false, σ1)
  ∧ Del h k σ1 = Ok ((EmptyString, false), σ1).
Proof.
  rewrite Del_closed.
  destruct (locate h k σ) as [[l [m d]]| |] eqn:Hloc; [|done..]. cbn.
  destruct (RWMutex.Lock m) as [m'| |] eqn:Hm; [|done..].
  intros [= <- <-].
  assert (mapaccess (mapdelete d k) k = (EmptyString, false)) as Hgone.
  { unfold mapaccess, mapdelete. destruct d as [d|]; cbn; [|done].
    by rewrite lookup_delete_eq. }
  rewrite Get_closed, Has_closed, Del_closed.
  rewrite (locate_insert _ _ _ _ _ _ Hloc).
  cbn [Lock Data RWMutex.zero RWMutex.writer RWMutex.readers RWMutex.Lock].
  unfold mapdelete in *. rewrite Hgone.
  split; [done|]. split; [done|].
  rewrite insert_insert_eq. do 3 f_equal.
  destruct d as [d|]; cbn; [|done].
  by rewrite delete_id by apply lookup_delete_eq.
Qed.

Lemma Del_then_absent_witness :
  Del fresh_table.1 "k" one_entry_heap = Ok (("w", true), fresh_table.2)
  ∧ Get fresh_table.1 "k" fresh_table.2
    = Ok ((EmptyString, false), fresh_table.2)
  ∧ Has fresh_table.1 "k" fresh_table.2 = Ok (false, fresh_table.2)
  ∧ Del fresh_table.1 "k" fresh_table.2
    = Ok ((EmptyString, false), fresh_table.2).
Proof.
  assert (Del fresh_table.1 "k" one_entry_heap
          = Ok (("w", true), fresh_table.2)) as Hdel.
  { vm_compute. reflexivity. }
  split; [exact Hdel|].
  exact (Del_then_absent fresh_table.1 one_entry_heap "k" _ _ Hdel).
Defined.

(** X4. Insert and delete undo each other.  When [Has(k)] is false,
    [Put(k, v)] followed by [Del(k)] returns [(v, true)] and gives the heap
    back as it was; when [Get(k)] finds [w], [Del(k)] followed by
    [Put(k, w)] gives the heap back as it was. *)
Theorem Put_Del_round_trip h σ k v w :
  (Has h k σ = Ok (false, σ) →
   ∀ u σ1, Put h k v σ = Ok (u, σ1) → Del h k σ1 = Ok ((v, true), σ))
  ∧ (Get h k σ = Ok ((w, true), σ) →
     ∀ r σ1, Del h k σ = Ok (r, σ1) → Put h k w σ1 = Ok (tt, σ)).
Proof.
  rewrite Has_closed, Get_closed, Put_closed, Del_closed.
  destruct (locate h k σ) as [[l [m d]]| |] eqn:Hloc;
    [|split; intros; simplify_eq..].
  apply locate_inv in Hloc as Hσ. destruct Hσ as [_ Hσ]. cbn.
  destruct (RWMutex.Lock m) as [m'| |] eqn:Hm;
    [|split; intros; simplify_eq..].
  apply RWMutex_Lock_inv in Hm as [-> ->]. cbn.
  split.
  - intros Habs u σ1 Hput. destruct d as [d|]; [|done].
    unfold mapaccess in Habs. cbn in Habs.
    destruct (d !! k) eqn:Hk; simplify_eq.
    rewrite Del_closed, (locate_insert _ _ _ _ _ _ Hloc). cbn.
    unfold mapaccess. cbn. rewrite lookup_insert_eq, insert_insert_eq.
    by rewrite delete_insert_id, insert_id.
  - intros Hget r σ1 [= <- <-]. destruct d as [d|]; [|done].
    unfold mapaccess in Hget. cbn in Hget.
    destruct (d !! k) eqn:Hk; simplify_eq.
    rewrite Put_closed, (locate_insert _ _ _ _ _ _ Hloc). cbn.
    rewrite insert_insert_eq.
    by rewrite insert_delete_id, insert_id.
Qed.

Lemma Put_Del_round_trip_witness :
  Has fresh_table.1 "k" fresh_table.2 = Ok (false, fresh_table.2)
  ∧ Put fresh_table.1 "k" "w" fresh_table.2 = Ok (tt, one_entry_heap)
  ∧ Del fresh_table.1 "k" one_entry_heap = Ok (("w", true), fresh_table.2)
  ∧ Get fresh_table.1 "k" one_entry_heap = Ok (("w", true), one_entry_heap)
  ∧ Put fresh_table.1 "k" "w" fresh_table.2 = Ok (tt, one_entry_heap).
Proof.
  assert (Has fresh_table.1 "k" fresh_table.2 = Ok (false, fresh_table.2))
    as Hhas by (vm_compute; reflexivity).
  assert (Put fresh_table.1 "k" "w" fresh_table.2 = Ok (tt, one_entry_heap))
    as Hput by (vm_compute; reflexivity).
  assert (Get fresh_table.1 "k" one_entry_heap
          = Ok (("w", true), one_entry_heap))
    as Hget by (vm_compute; reflexivity).
  assert (Del fresh_table.1 "k" one_entry_heap
          = Ok (("w", true), fresh_table.2))
    as Hdel by (vm_compute; reflexivity).
  destruct (Put_Del_round_trip fresh_table.1 fresh_table.2 "k" "w" "w")
    as [Hpd _].
  destruct (Put_Del_round_trip fresh_table.1 one_entry_heap "k" "w" "w")
    as [_ Hdp].
  split; [exact Hhas|]. split; [exact Hput|].
  split; [exact (Hpd Hhas tt one_entry_heap Hput)|].
  split; [exact Hget|].
  exact (Hdp Hget _ _ Hdel).
Defined.


(** ** Heaps that stand for the same map *)

(** The mutators write only at addresses that the table holds. *)
Lemma Put_frame h k v σ u σ' l :
  Put h k v σ = Ok (u, σ') →
  (∀ j, h !! j ≠ Some (Some l)) → σ' !! l = σ !! l.
Proof.
  intros (l0 & d & Hl0 & _ & ->)%Put_inv Hl.
  rewrite lookup_insert_ne; [done|]. intros ->. by eapply Hl.
Qed.

(** Two heaps in which [h] stands for the same map, and which agree
    outside the shards of [h], are the same heap. *)
Lemma repr_heap_eq h σ σ' m :
  repr h σ m → repr h σ' m →
  (∀ l, (∀ j, h !! j ≠ Some (Some l)) → σ !! l = σ' !! l) →
  σ = σ'.
Proof.
  intros Hr Hr' Hout. apply map_eq. intros l.
  destruct (decide (Some l ∈ h)) as [Hin|Hnin].
  - apply list_elem_of_lookup in Hin as [j Hj].
    apply lookup_lt_Some in Hj as Hlt.
    pose proof (repr_length _ _ _ Hr) as Hlen.
    destruct (repr_shard _ _ _ Hr (Z.of_nat j) ltac:(lia)) as (l1 & Hl1 & H1).
    destruct (repr_shard _ _ _ Hr' (Z.of_nat j) ltac:(lia)) as (l2 & Hl2 & H2).
    rewrite Nat2Z.id in Hl1, Hl2. simplify_eq. by rewrite H1, H2.
  - apply Hout. intros j Hj. apply Hnin. by eapply list_elem_of_lookup_2.
Qed.

(** X5. On a container state, [Put] calls on two different keys can be
    swapped: either order returns and leaves the same heap. *)
Theorem Put_commute h σ k1 v1 k2 v2 :
  reachable h σ → k1 ≠ k2 →
  ∃ σ', (Put h k1 v1;; Put h k2 v2) σ = Ok (tt, σ')
      ∧ (Put h k2 v2;; Put h k1 v1) σ = Ok (tt, σ').
Proof.
  intros [m Hr]%reachable_repr Hne.
  destruct (repr_Put _ _ _ Hr k1 v1) as (σ1 & Hp1 & Hr1).
  destruct (repr_Put _ _ _ Hr1 k2 v2) as (σ12 & Hp12 & Hr12).
  destruct (repr_Put _ _ _ Hr k2 v2) as (σ2 & Hp2 & Hr2).
  destruct (repr_Put _ _ _ Hr2 k1 v1) as (σ21 & Hp21 & Hr21).
  exists σ12. erewrite !bind_run by done. split; [done|].
  rewrite Hp21. do 2 f_equal.
  rewrite insert_insert_ne in Hr21 by done.
  apply (repr_heap_eq h _ _ _ Hr21 Hr12). intros l Hl.
  rewrite (Put_frame _ _ _ _ _ _ l Hp21 Hl), (Put_frame _ _ _ _ _ _ l Hp2 Hl).
  by rewrite (Put_frame _ _ _ _ _ _ l Hp12 Hl), (Put_frame _ _ _ _ _ _ l Hp1 Hl).
Qed.

Lemma Put_commute_witness :
  reachable fresh_table.1 one_entry_heap
  ∧ "a" ≠ "b"
  ∧ ∃ σ', (Put fresh_table.1 "a" "1";; Put fresh_table.1 "b" "2")
            one_entry_heap = Ok (tt, σ')
        ∧ (Put fresh_table.1 "b" "2";; Put fresh_table.1 "a" "1")
            one_entry_heap = Ok (tt, σ').
Proof.
  assert (reachable fresh_table.1 one_entry_heap) as Hreach.
  { apply (reach_Put fresh_table.1 fresh_table.2 "k" "w" tt).
    - apply (reach_New ∅). vm_compute. reflexivity.
    - vm_compute. reflexivity. }
  assert ("a" ≠ "b") as Hne by (intros H; discriminate H).
  split; [exact Hreach|]. split; [exact Hne|].
  exact (Put_commute fresh_table.1 one_entry_heap "a" "1" "b" "2" Hreach Hne).
Defined.

(** X6. On a container state, a [Put], [PutIfNotExist] or [Del] on key [k]
    leaves what [Get] returns for every other key. *)
Theorem other_keys_kept h σ k k' v :
  reachable h σ → k' ≠ k →
  ∃ r, Get h k' σ = Ok (r, σ)
     ∧ (∀ u σ', Put h k v σ = Ok (u, σ') → Get h k' σ' = Ok (r, σ'))
     ∧ (∀ b σ', PutIfNotExist h k v σ = Ok (b, σ') →
          Get h k' σ' = Ok (r, σ'))
     ∧ (∀ r0 σ', Del h k σ = Ok (r0, σ') → Get h k' σ' = Ok (r, σ')).
Proof.
  intros [m Hr]%reachable_repr Hne. exists (found (m !! k')).
  split; [by apply repr_Get|]. split; [|split].
  - intros u σ' Hrun.
    destruct (repr_Put _ _ _ Hr k v) as (σ1 & Hrun1 & Hr1).
    replace σ' with σ1 by congruence.
    by rewrite (repr_Get _ _ _ Hr1), lookup_insert_ne.
  - intros b σ' Hrun.
    destruct (repr_PutIfNotExist _ _ _ Hr k v) as (σ1 & Hrun1 & Hr1).
    replace σ' with σ1 by congruence.
    rewrite (repr_Get _ _ _ Hr1). destruct (m !! k); [done|].
    by rewrite lookup_insert_ne.
  - intros r0 σ' Hrun.
    destruct (repr_Del _ _ _ Hr k) as (σ1 & Hrun1 & Hr1).
    replace σ' with σ1 by congruence.
    by rewrite (repr_Get _ _ _ Hr1), lookup_delete_ne.
Qed.

Lemma other_keys_kept_witness :
  reachable fresh_table.1 one_entry_heap
  ∧ "k" ≠ "other"
  ∧ Del fresh_table.1 "other" one_entry_heap
    = Ok ((EmptyString, false), one_entry_heap)
  ∧ ∃ r, Get fresh_table.1 "k" one_entry_heap = Ok (r, one_entry_heap)
       ∧ Get fresh_table.1 "k" one_entry_heap = Ok (r, one_entry_heap).
Proof.
  assert (reachable fresh_table.1 one_entry_heap) as Hreach.
  { apply (reach_Put fresh_table.1 fresh_table.2 "k" "w" tt).
    - apply (reach_New ∅). vm_compute. reflexivity.
    - vm_compute. reflexivity. }
  assert ("k" ≠ "other") as Hne by (intros H; discriminate H).
  assert (Del fresh_table.1 "other" one_entry_heap
          = Ok ((EmptyString, false), one_entry_heap)) as Hdel
    by (vm_compute; reflexivity).
  destruct (other_keys_kept fresh_table.1 one_entry_heap "other" "k" "v"
              Hreach Hne) as (r & Hget & _ & _ & Hkept).
  split; [exact Hreach|]. split; [exact Hne|]. split; [exact Hdel|].
  exists r. split; [exact Hget|exact (Hkept _ _ Hdel)].
Defined.


(** ** Counting, modulo the width of [int] *)

Lemma wrap_int_add a b :
  Int.wrap_int (Int.wrap_int a + b) = Int.wrap_int (a + b).
Proof.
  unfold Int.wrap_int. f_equal.
  replace ((a + 2 ^ 63) `mod` 2 ^ 64 - 2 ^ 63 + b + 2 ^ 63)%Z
    with ((a + 2 ^ 63) `mod` 2 ^ 64 + b)%Z by lia.
  rewrite Zplus_mod_idemp_l. f_equal. lia.
Qed.

Lemma Len_loop_wrap h σ m n : ∀ i : nat,
  repr h σ m →
  (Z.of_nat (i + n) = SHARD_COUNT)%Z →
  forM (seqZ (Z.of_nat i) (Z.of_nat n)) (Len_body h)
    (Int.wrap_int (Z.of_nat (size (below (Z.of_nat i) m)))) σ
  = Ok (Int.wrap_int (Z.of_nat (size m)), σ).
Proof.
  induction n as [|n IH]; intros i Hr Hin.
  - simpl. unfold mret, M_ret. rewrite Nat.add_0_r in Hin.
    by rewrite Hin, below_all.
  - rewrite seqZ_cons by lia. cbn [forM].
    erewrite bind_run by (by apply (Len_body_run h σ m); [|lia]).
    rewrite wrap_int_add, <- Nat2Z.inj_add, <- below_succ.
    replace (Z.succ (Z.of_nat i)) with (Z.of_nat (S i)) by lia.
    replace (Z.pred (Z.of_nat (S n))) with (Z.of_nat n) by lia.
    replace (Z.of_nat i + 1)%Z with (Z.of_nat (S i)) by lia.
    apply IH; [done|lia].
Qed.

(** On a table that stands for [m], [Len] returns the size of [m] as an
    [int]. *)
Lemma repr_Len_wrap h σ m :
  repr h σ m → Len h σ = Ok (Int.wrap_int (Z.of_nat (size m)), σ).
Proof.
  intros Hr. unfold Len, upto.
  pose proof (Len_loop_wrap h σ m (Z.to_nat SHARD_COUNT) 0 Hr eq_refl) as H.
  by rewrite below_0, map_size_empty in H.
Qed.

(** X7. On a container state where [Len()] returns [n]: after [Put(k, v)]
    it returns [n + 1] when [Has(k)] was false and [n] when it was true;
    after [Del(k)] it returns [n - 1] when [Has(k)] was true and [n] when
    it was false; sums are those of [int]. *)
Theorem Len_steps h σ k v n :
  reachable h σ →
  Len h σ = Ok (n, σ) →
  ∃ b σp σd r,
    Has h k σ = Ok (b, σ)
    ∧ Put h k v σ = Ok (tt, σp)
    ∧ Len h σp = Ok (Int.wrap_int (n + (if b then 0 else 1)), σp)
    ∧ Del h k σ = Ok (r, σd)
    ∧ Len h σd = Ok (Int.wrap_int (n - (if b then 1 else 0)), σd).
Proof.
  intros [m Hr]%reachable_repr Hlen.
  rewrite (repr_Len_wrap _ _ _ Hr) in Hlen. simplify_eq.
  destruct (repr_Put _ _ _ Hr k v) as (σp & Hput & Hrp).
  destruct (repr_Del _ _ _ Hr k) as (σd & Hdel & Hrd).
  exists (bool_decide (is_Some (m !! k))), σp, σd, (found (m !! k)).
  rewrite (repr_Has _ _ _ Hr), (repr_Len_wrap _ _ _ Hrp),
    (repr_Len_wrap _ _ _ Hrd).
  split_and!; [done|done| |done|].
  - do 2 f_equal. rewrite wrap_int_add. f_equal.
    destruct (m !! k) as [w|] eqn:Hk.
    + rewrite bool_decide_eq_true_2 by done.
      rewrite map_size_insert_Some by done. lia.
    + rewrite bool_decide_eq_false_2 by by intros [].
      rewrite map_size_insert_None by done. lia.
  - do 2 f_equal.
    replace (Int.wrap_int (Z.of_nat (size m))
             - (if bool_decide (is_Some (m !! k)) then 1 else 0))%Z
      with (Int.wrap_int (Z.of_nat (size m))
            + - (if bool_decide (is_Some (m !! k)) then 1 else 0))%Z by lia.
    rewrite wrap_int_add. f_equal.
    destruct (m !! k) as [w|] eqn:Hk.
    + rewrite bool_decide_eq_true_2 by done.
      pose proof (map_size_delete_Some k m ltac:(done)).
      assert (0 < size m).
      { destruct (decide (size m = 0)) as [H0|]; [|lia].
        apply map_size_empty_iff in H0. by simplify_map_eq. }
      lia.
    + rewrite bool_decide_eq_false_2 by by intros [].
      rewrite map_size_delete_None by done. lia.
Qed.

Lemma Len_steps_witness :
  reachable fresh_table.1 one_entry_heap
  ∧ Len fresh_table.1 one_entry_heap = Ok (1%Z, one_entry_heap)
  ∧ ∃ b σp σd r,
      Has fresh_table.1 "new" one_entry_heap = Ok (b, one_entry_heap)
      ∧ Put fresh_table.1 "new" "v" one_entry_heap = Ok (tt, σp)
      ∧ Len fresh_table.1 σp
        = Ok (Int.wrap_int (1 + (if b then 0 else 1)), σp)
      ∧ Del fresh_table.1 "new" one_entry_heap = Ok (r, σd)
      ∧ Len fresh_table.1 σd
        = Ok (Int.wrap_int (1 - (if b then 1 else 0)), σd).
Proof.
  assert (reachable fresh_table.1 one_entry_heap) as Hreach.
  { apply (reach_Put fresh_table.1 fresh_table.2 "k" "w" tt).
    - apply (reach_New ∅). vm_compute. reflexivity.
    - vm_compute. reflexivity. }
  assert (Len fresh_table.1 one_entry_heap = Ok (1%Z, one_entry_heap))
    as Hlen by (vm_compute; reflexivity).
  split; [exact Hreach|]. split; [exact Hlen|].
  exact (Len_steps fresh_table.1 one_entry_heap "new" "v" 1 Hreach Hlen).
Defined.


(** ** Tables that [New] did not make *)

(** X8. A keyed method panics with an index out of range when the table is
    too short for the routed slot, as on the zero value of [HashTable], and
    with a nil dereference when the routed slot is nil, as on
    [make(HashTable, 32)].  When the routed shard has no map, as
    [&shard{}], reads report the key missing and the two writes panic. *)
Theorem unmade_table_panics h k v σ :
  ((Z.of_nat (length h) ≤ shardIndex k)%Z →
   Get h k σ = Panic IndexOutOfRange
   ∧ Has h k σ = Panic IndexOutOfRange
   ∧ Put h k v σ = Panic IndexOutOfRange
   ∧ PutIfNotExist h k v σ = Panic IndexOutOfRange
   ∧ Del h k σ = Panic IndexOutOfRange)
  ∧ (h !! Z.to_nat (shardIndex k) = Some None →
     Get h k σ = Panic NilDereference
     ∧ Has h k σ = Panic NilDereference
     ∧ Put h k v σ = Panic NilDereference
     ∧ PutIfNotExist h k v σ = Panic NilDereference
     ∧ Del h k σ = Panic NilDereference)
  ∧ (∀ l, h !! Z.to_nat (shardIndex k) = Some (Some l) →
     σ !! l = Some (mkShard RWMutex.zero None) →
     Get h k σ = Ok ((EmptyString, false), σ)
     ∧ Has h k σ = Ok (false, σ)
     ∧ Del h k σ = Ok ((EmptyString, false), σ)
     ∧ Put h k v σ = Panic NilMapAssignment
     ∧ PutIfNotExist h k v σ = Panic NilMapAssignment).
Proof.
  rewrite Get_closed, Has_closed, Put_closed, PutIfNotExist_closed, Del_closed.
  split; [|split].
  - intros Hshort. unfold locate. by rewrite decide_False by lia.
  - intros Hnil. unfold locate. apply lookup_lt_Some in Hnil as Hlt.
    pose proof (shardIndex_range k).
    rewrite decide_True by lia. by rewrite Hnil.
  - intros l Hl Hσ. rewrite (locate_run _ _ _ _ _ Hl Hσ). cbn.
    by rewrite insert_id.
Qed.

Lemma unmade_table_panics_witness :
  (Z.of_nat (length ([] : HashTable)) ≤ shardIndex "k")%Z
  ∧ nil_table !! Z.to_nat (shardIndex "k") = Some None
  ∧ fresh_table.1 !! Z.to_nat (shardIndex "k") = Some (Some 20)
  ∧ nil_map_heap !! 20 = Some (mkShard RWMutex.zero None)
  ∧ Get [] "k" ∅ = Panic IndexOutOfRange
  ∧ Put [] "k" "v" ∅ = Panic IndexOutOfRange
  ∧ Get nil_table "k" ∅ = Panic NilDereference
  ∧ Put nil_table "k" "v" ∅ = Panic NilDereference
  ∧ Get fresh_table.1 "k" nil_map_heap
    = Ok ((EmptyString, false), nil_map_heap)
  ∧ Put fresh_table.1 "k" "v" nil_map_heap = Panic NilMapAssignment.
Proof.
  assert (Z.of_nat (length ([] : HashTable)) ≤ shardIndex "k")%Z as Hshort.
  { vm_compute. intros H. discriminate H. }
  assert (nil_table !! Z.to_nat (shardIndex "k") = Some None) as Hnil
    by reflexivity.
  assert (fresh_table.1 !! Z.to_nat (shardIndex "k") = Some (Some 20))
    as Hslot by reflexivity.
  assert (nil_map_heap !! 20 = Some (mkShard RWMutex.zero None)) as Hshard
    by (vm_compute; reflexivity).
  destruct (unmade_table_panics [] "k" "v" ∅) as [Hs _].
  destruct (unmade_table_panics nil_table "k" "v" ∅) as (_ & Hn & _).
  destruct (unmade_table_panics fresh_table.1 "k" "v" nil_map_heap)
    as (_ & _ & Hm).
  destruct (Hs Hshort) as (Hg & _ & Hp & _).
  destruct (Hn Hnil) as (Hg' & _ & Hp' & _).
  destruct (Hm 20 Hslot Hshard) as (Hg2 & _ & _ & Hp2 & _).
  split; [exact Hshort|]. split; [exact Hnil|]. split; [exact Hslot|].
  split; [exact Hshard|]. split; [exact Hg|]. split; [exact Hp|].
  split; [exact Hg'|]. split; [exact Hp'|]. split; [exact Hg2|]. exact Hp2.
Defined.

(** What one turn of the loop of [Len] needs in order to return. *)
Lemma Len_body_inv h i count σ count' σ' :
  Len_body h i count σ = Ok (count', σ') →
  σ' = σ
  ∧ (0 ≤ i < Z.of_nat (length h))%Z
  ∧ ∃ l s, h !! Z.to_nat i = Some (Some l) ∧ σ !! l = Some s
         ∧ RWMutex.writer (Lock s) = false.
Proof.
  unfold Len_body. intros H. inv_steps.
  match goal with H : RWMutex.RLock _ = _ |- _ =>
    pose proof (RWMutex_RLock_RUnlock _ _ H);
    unfold RWMutex.RLock in H; case_match; [done|] end.
  match goal with s : shard |- _ => destruct s as [m d0] end.
  inv_steps. rewrite insert_insert_eq.
  match goal with
  | H1 : RWMutex.RUnlock ?a = Ok ?m1, H2 : RWMutex.RUnlock ?a = Ok ?m2 |- _ =>
      assert (m2 = m1) as -> by congruence
  end.
  split; [by rewrite insert_id|]. split; [done|]. eauto 10.
Qed.

Lemma Len_loop_inv h l : ∀ count σ n σ',
  forM l (Len_body h) count σ = Ok (n, σ') →
  σ' = σ
  ∧ ∀ i, i ∈ l →
      (0 ≤ i < Z.of_nat (length h))%Z
      ∧ ∃ a s, h !! Z.to_nat i = Some (Some a) ∧ σ !! a = Some s
             ∧ RWMutex.writer (Lock s) = false.
Proof.
  induction l as [|i l IH]; intros count σ n σ' H.
  - apply ret_inv in H as [_ ->]. split; [done|]. by intros i ?%elem_of_nil.
  - cbn [forM] in H. apply bind_inv in H as (c1 & σ1 & Hbody & Hrest).
    apply Len_body_inv in Hbody as (-> & Hi & Hs).
    apply IH in Hrest as (-> & Hl). split; [done|].
    intros j [->|Hj]%elem_of_cons; [done|by apply Hl].
Qed.

(** X9. Whenever [Len()] returns, the heap is as it was, and the table has
    at least 32 slots, the first 32 of which point to shards that no writer
    holds.  So on a shorter table, and on one with a nil slot or a shard
    held for writing among the first 32, [Len()] does not return. *)
Theorem Len_returns h σ n σ' :
  Len h σ = Ok (n, σ') →
  σ' = σ
  ∧ 32 ≤ length h
  ∧ ∀ i, i < 32 →
      ∃ l s, h !! i = Some (Some l) ∧ σ !! l = Some s
           ∧ RWMutex.writer (Lock s) = false.
Proof.
  intros (-> & Hall)%Len_loop_inv. split; [done|].
  assert (∀ i, i < 32 → Z.of_nat i ∈ upto SHARD_COUNT) as Hin.
  { intros i Hi. apply elem_of_seqZ. unfold SHARD_COUNT. lia. }
  split.
  - destruct (Hall 31%Z (Hin 31 ltac:(lia))) as [? _]. lia.
  - intros i Hi. destruct (Hall _ (Hin i Hi)) as (_ & l & s & Hl & Hs).
    rewrite Nat2Z.id in Hl. eauto.
Qed.

Lemma Len_returns_witness :
  Len fresh_table.1 one_entry_heap = Ok (1%Z, one_entry_heap)
  ∧ 32 ≤ length fresh_table.1
  ∧ ∃ l s, fresh_table.1 !! 20 = Some (Some l) ∧ one_entry_heap !! l = Some s
         ∧ RWMutex.writer (Lock s) = false.
Proof.
  assert (Len fresh_table.1 one_entry_heap = Ok (1%Z, one_entry_heap))
    as Hlen by (vm_compute; reflexivity).
  destruct (Len_returns fresh_table.1 one_entry_heap 1 one_entry_heap Hlen)
    as (_ & Hsize & Hslots).
  assert (20 < 32) as H20.
  { vm_compute. apply Nat.leb_le. reflexivity. }
  split; [exact Hlen|]. split; [exact Hsize|]. exact (Hslots 20 H20).
Defined.


(** ** The mutex of a shard *)

(** X10. Reads take the mutex of the routed shard shared and writes take
    it exclusive.  While a writer holds it no keyed method can go on; while
    only readers hold it [Get] and [Has] return as usual, leaving the
    readers as they were, and [Put], [PutIfNotExist] and [Del] cannot go
    on. *)
Theorem lock_modes h k v σ l s :
  h !! Z.to_nat (shardIndex k) = Some (Some l) →
  σ !! l = Some s →
  (RWMutex.writer (Lock s) = true →
   Get h k σ = Blocked
   ∧ Has h k σ = Blocked
   ∧ Put h k v σ = Blocked
   ∧ PutIfNotExist h k v σ = Blocked
   ∧ Del h k σ = Blocked)
  ∧ (RWMutex.writer (Lock s) = false → RWMutex.readers (Lock s) ≠ 0 →
     Get h k σ = Ok (mapaccess (Data s) k, σ)
     ∧ Has h k σ = Ok ((mapaccess (Data s) k).2, σ)
     ∧ Put h k v σ = Blocked
     ∧ PutIfNotExist h k v σ = Blocked
     ∧ Del h k σ = Blocked).
Proof.
  intros Hl Hs.
  rewrite Get_closed, Has_closed, Put_closed, PutIfNotExist_closed, Del_closed.
  rewrite (locate_run _ _ _ _ _ Hl Hs).
  destruct s as [[w n] d]. cbn. split.
  - by intros ->.
  - intros -> Hn. cbn. by destruct n.
Qed.

Lemma lock_modes_witness :
  fresh_table.1 !! Z.to_nat (shardIndex "k") = Some (Some 20)
  ∧ heap_with_lock (RWMutex.mk true 0) !! 20
    = Some (mkShard (RWMutex.mk true 0) (Some ∅))
  ∧ heap_with_lock (RWMutex.mk false 2) !! 20
    = Some (mkShard (RWMutex.mk false 2) (Some ∅))
  ∧ Get fresh_table.1 "k" (heap_with_lock (RWMutex.mk true 0)) = Blocked
  ∧ Put fresh_table.1 "k" "v" (heap_with_lock (RWMutex.mk true 0)) = Blocked
  ∧ Get fresh_table.1 "k" (heap_with_lock (RWMutex.mk false 2))
    = Ok ((EmptyString, false), heap_with_lock (RWMutex.mk false 2))
  ∧ Put fresh_table.1 "k" "v" (heap_with_lock (RWMutex.mk false 2)) = Blocked.
Proof.
  assert (fresh_table.1 !! Z.to_nat (shardIndex "k") = Some (Some 20))
    as Hslot by reflexivity.
  assert (heap_with_lock (RWMutex.mk true 0) !! 20
          = Some (mkShard (RWMutex.mk true 0) (Some ∅))) as Hw
    by (vm_compute; reflexivity).
  assert (heap_with_lock (RWMutex.mk false 2) !! 20
          = Some (mkShard (RWMutex.mk false 2) (Some ∅))) as Hr
    by (vm_compute; reflexivity).
  destruct (lock_modes fresh_table.1 "k" "v" _ _ _ Hslot Hw) as [Hwriter _].
  destruct (lock_modes fresh_table.1 "k" "v" _ _ _ Hslot Hr) as [_ Hreaders].
  destruct (Hwriter eq_refl) as (Hg & _ & Hp & _).
  assert (RWMutex.readers (Lock (mkShard (RWMutex.mk false 2) (Some ∅))) ≠ 0)
    as Hn by (intros H; discriminate H).
  destruct (Hreaders eq_refl Hn) as (Hg' & _ & Hp' & _).
  split; [exact Hslot|]. split; [exact Hw|]. split; [exact Hr|].
  split; [exact Hg|]. split; [exact Hp|]. split; [exact Hg'|]. exact Hp'.
Defined.

Lemma locks_kept_insert σ l s s' :
  σ !! l = Some s → Lock s' = Lock s → locks_kept σ (<[l:=s']> σ).
Proof.
  intros Hs Hlock l'. destruct (decide (l' = l)) as [->|Hne].
  - rewrite lookup_insert_eq, Hs. simpl. by rewrite Hlock.
  - by rewrite lookup_insert_ne.
Qed.

(** X11. Every method gives back the mutex it took: whenever one of the
    six methods returns, every shard's mutex is in the state it was in
    before the call, and no shard has appeared or gone. *)
Theorem locks_released h k v σ :
  (∀ r σ', Get h k σ = Ok (r, σ') → locks_kept σ σ')
  ∧ (∀ b σ', Has h k σ = Ok (b, σ') → locks_kept σ σ')
  ∧ (∀ u σ', Put h k v σ = Ok (u, σ') → locks_kept σ σ')
  ∧ (∀ b σ', PutIfNotExist h k v σ = Ok (b, σ') → locks_kept σ σ')
  ∧ (∀ r σ', Del h k σ = Ok (r, σ') → locks_kept σ σ')
  ∧ (∀ n σ', Len h σ = Ok (n, σ') → locks_kept σ σ').
Proof.
  split_and!.
  - by intros r σ' (l & s & _ & _ & _ & _ & ->)%Get_inv.
  - by intros b σ' (l & s & _ & _ & _ & _ & ->)%Has_inv.
  - intros u σ' (l & d & _ & Hs & ->)%Put_inv.
    by eapply locks_kept_insert.
  - intros b σ' (l & d & _ & Hs & _ & -> & _)%PutIfNotExist_inv.
    destruct b; [by eapply locks_kept_insert|done].
  - intros r σ' (l & d & _ & Hs & _ & ->)%Del_inv.
    by eapply locks_kept_insert.
  - by intros n σ' [-> _]%Len_loop_inv.
Qed.

Lemma locks_released_witness :
  Put fresh_table.1 "k" "w" fresh_table.2 = Ok (tt, one_entry_heap)
  ∧ Del fresh_table.1 "k" one_entry_heap = Ok (("w", true), fresh_table.2)
  ∧ locks_kept fresh_table.2 one_entry_heap
  ∧ locks_kept one_entry_heap fresh_table.2.
Proof.
  assert (Put fresh_table.1 "k" "w" fresh_table.2 = Ok (tt, one_entry_heap))
    as Hput by (vm_compute; reflexivity).
  assert (Del fresh_table.1 "k" one_entry_heap
          = Ok (("w", true), fresh_table.2))
    as Hdel by (vm_compute; reflexivity).
  destruct (locks_released fresh_table.1 "k" "w" fresh_table.2)
    as (_ & _ & HP & _).
  destruct (locks_released fresh_table.1 "k" "w" one_entry_heap)
    as (_ & _ & _ & _ & HD & _).
  split; [exact Hput|]. split; [exact Hdel|].
  split; [exact (HP _ _ Hput)|exact (HD _ _ Hdel)].
Defined.

(** X12. Between calls no lock is held: in every reachable container each
    shard's mutex has no writer and no reader. *)
Theorem locks_free h σ i l s :
  reachable h σ →
  h !! i = Some (Some l) → σ !! l = Some s →
  Lock s = RWMutex.zero.
Proof.
  intros [m Hr]%reachable_repr Hl Hs.
  apply lookup_lt_Some in Hl as Hlt.
  pose proof (repr_length _ _ _ Hr) as Hlen.
  destruct (repr_shard _ _ _ Hr (Z.of_nat i) ltac:(lia)) as (l' & Hl' & Hs').
  rewrite Nat2Z.id in Hl'. by simplify_eq.
Qed.

Lemma locks_free_witness :
  reachable fresh_table.1 one_entry_heap
  ∧ fresh_table.1 !! 20 = Some (Some 20)
  ∧ one_entry_heap !! 20
    = Some (mkShard RWMutex.zero (Some {["k" := "w"]}))
  ∧ Lock (mkShard RWMutex.zero (Some {["k" := "w"]})) = RWMutex.zero.
Proof.
  assert (reachable fresh_table.1 one_entry_heap) as Hreach.
  { apply (reach_Put fresh_table.1 fresh_table.2 "k" "w" tt).
    - apply (reach_New ∅). vm_compute. reflexivity.
    - vm_compute. reflexivity. }
  assert (fresh_table.1 !! 20 = Some (Some 20)) as Hslot by reflexivity.
  assert (one_entry_heap !! 20
          = Some (mkShard RWMutex.zero (Some {["k" := "w"]}))) as Hshard
    by (vm_compute; reflexivity).
  split; [exact Hreach|]. split; [exact Hslot|]. split; [exact Hshard|].
  exact (locks_free _ _ _ _ _ Hreach Hslot Hshard).
Defined.


(** ** Containers side by side *)

Lemma New_body_inv i ht σ ht' σ' :
  New_body i ht σ = Ok (ht', σ') →
  ht' = <[Z.to_nat i:=Some (fresh (dom σ))]> ht
  ∧ σ' = <[fresh (dom σ):=empty_shard]> σ.
Proof.
  unfold New_body, alloc, index_set, mbind, M_bind.
  case_decide; [|done]. unfold mret, M_ret. intros; by simplify_eq.
Qed.

(** The shards that [New] makes are at addresses that were not in use. *)
Lemma New_loop_fresh (σ0 : heap) l : ∀ ht σ h σ',
  σ0 ⊆ σ →
  (∀ j a, ht !! j = Some (Some a) → σ0 !! a = None) →
  forM l New_body ht σ = Ok (h, σ') →
  ∀ j a, h !! j = Some (Some a) → σ0 !! a = None.
Proof.
  induction l as [|i l IH]; intros ht σ h σ' Hsub Hht Hrun.
  - apply ret_inv in Hrun as [-> _]. exact Hht.
  - cbn [forM] in Hrun. apply bind_inv in Hrun as (ht1 & σ1 & Hbody & Hrest).
    apply New_body_inv in Hbody as [-> ->].
    assert (σ !! fresh (dom σ) = None) as Hfresh
      by apply not_elem_of_dom, is_fresh.
    eapply IH; [| |exact Hrest].
    + etrans; [exact Hsub|]. by apply insert_subseteq.
    + intros j a Hj.
      destruct (decide (j = Z.to_nat i)) as [->|Hne].
      * apply list_lookup_insert_Some in Hj as [(_ & [= <-] & _)|[? _]];
          [|done].
        by eapply lookup_weaken_None.
      * rewrite list_lookup_insert_ne in Hj by done. by eapply Hht.
Qed.

Lemma New_unfold σ0 :
  New σ0 = forM (upto SHARD_COUNT) New_body
             (replicate (Z.to_nat SHARD_COUNT) None) σ0.
Proof. reflexivity. Qed.

Lemma New_fresh σ0 h σ j a :
  New σ0 = Ok (h, σ) → h !! j = Some (Some a) → σ0 !! a = None.
Proof.
  rewrite New_unfold. intros Hnew Hj. revert j a Hj.
  refine (New_loop_fresh σ0 _ _ σ0 h σ _ _ Hnew).
  - reflexivity.
  - intros j' a' Hj'. apply lookup_replicate in Hj' as [Hj' _].
    discriminate Hj'.
Qed.

Lemma repr_subseteq h σ σ' m : repr h σ m → σ ⊆ σ' → repr h σ' m.
Proof.
  intros [Hlen Hna Hsh] Hsub. split; [done..|].
  intros i Hi. destruct (Hsh i Hi) as (l & Hl & Hσ).
  exists l. split; [done|]. by eapply lookup_weaken.
Qed.

Lemma repr_insert_other h σ m a s :
  repr h σ m → (∀ j, h !! j ≠ Some (Some a)) → repr h (<[a:=s]> σ) m.
Proof.
  intros [Hlen Hna Hsh] Ha. split; [done..|].
  intros i Hi. destruct (Hsh i Hi) as (l & Hl & Hσ).
  exists l. split; [done|]. rewrite lookup_insert_ne; [done|].
  intros ->. by eapply Ha.
Qed.

(** X13. A second container does not disturb the first.  When [New] is
    called in the heap of a reachable container [h1], every shard that was
    there is still there unchanged, the shards of the new table are at
    addresses that were unused, and a [Put] on the new table is seen by
    [Get] on the new table and leaves what [Get] returns on [h1]. *)
Theorem New_independent h1 σ1 h2 σ2 k k2 v r :
  reachable h1 σ1 →
  New σ1 = Ok (h2, σ2) →
  Get h1 k σ1 = Ok (r, σ1) →
  (∀ l s, σ1 !! l = Some s → σ2 !! l = Some s)
  ∧ (∀ j l, h2 !! j = Some (Some l) → σ1 !! l = None)
  ∧ Get h1 k σ2 = Ok (r, σ2)
  ∧ ∃ σ3, Put h2 k2 v σ2 = Ok (tt, σ3)
        ∧ Get h2 k2 σ3 = Ok ((v, true), σ3)
        ∧ Get h1 k σ3 = Ok (r, σ3).
Proof.
  intros [m Hr1]%reachable_repr Hnew Hget.
  rewrite (repr_Get _ _ _ Hr1) in Hget. injection Hget as <-.
  destruct (New_repr σ1) as (h2' & σ2' & Hnew' & Hr2 & Hsub).
  rewrite Hnew in Hnew'. injection Hnew' as <- <-.
  pose proof (repr_subseteq _ _ _ _ Hr1 Hsub) as Hr1'.
  split; [intros l s Hs; by eapply lookup_weaken|].
  split; [intros j l Hj; by eapply New_fresh|].
  split; [by apply repr_Get|].
  destruct (repr_Put _ _ _ Hr2 k2 v) as (σ3 & Hput & Hr3).
  exists σ3. split; [done|].
  split; [by rewrite (repr_Get _ _ _ Hr3), lookup_insert_eq|].
  apply Put_inv in Hput as (l & d & Hl & _ & ->).
  apply repr_Get, repr_insert_other; [done|].
  intros j Hj.
  pose proof (New_fresh _ _ _ _ _ Hnew Hl) as Hfresh.
  apply lookup_lt_Some in Hj as Hlt.
  pose proof (repr_length _ _ _ Hr1) as Hlen.
  destruct (repr_shard _ _ _ Hr1 (Z.of_nat j) ltac:(lia)) as (l' & Hl' & Hs').
  rewrite Nat2Z.id in Hl'. congruence.
Qed.

Lemma New_independent_witness :
  reachable fresh_table.1 one_entry_heap
  ∧ (∃ h2 σ2,
       New one_entry_heap = Ok (h2, σ2)
       ∧ Get fresh_table.1 "k" one_entry_heap
         = Ok (("w", true), one_entry_heap)
       ∧ Get fresh_table.1 "k" σ2 = Ok (("w", true), σ2)
       ∧ ∃ σ3, Put h2 "k" "other" σ2 = Ok (tt, σ3)
             ∧ Get h2 "k" σ3 = Ok (("other", true), σ3)
             ∧ Get fresh_table.1 "k" σ3 = Ok (("w", true), σ3)).
Proof.
  assert (reachable fresh_table.1 one_entry_heap) as Hreach.
  { apply (reach_Put fresh_table.1 fresh_table.2 "k" "w" tt).
    - apply (reach_New ∅). vm_compute. reflexivity.
    - vm_compute. reflexivity. }
  assert (Get fresh_table.1 "k" one_entry_heap
          = Ok (("w", true), one_entry_heap)) as Hget
    by (vm_compute; reflexivity).
  split; [exact Hreach|].
  destruct (New one_entry_heap) as [[h2 σ2]| |] eqn:Hnew;
    [|vm_compute in Hnew; discriminate Hnew..].
  destruct (New_independent fresh_table.1 one_entry_heap h2 σ2 "k" "k"
              "other" _ Hreach Hnew Hget) as (_ & _ & Hget2 & Hput).
  exists h2, σ2. split; [reflexivity|]. split; [exact Hget|].
  split; [exact Hget2|exact Hput].
Defined.

(** ** From *)

Lemma From_loop_Put_all h l : ∀ σ m,
  repr h σ m → forM l (From_body h) tt σ = Put_all h l σ.
Proof.
  unfold Put_all.
  induction l as [|[k v] l IH]; intros σ m Hr; [done|].
  destruct (repr_ready _ _ _ k Hr) as (a & Ha & Hσ).
  destruct (repr_Put _ _ _ Hr k v) as (σ1 & Hput & Hr1).
  cbn [forM]. unfold mbind, M_bind.
  rewrite (From_body_Put _ _ _ _ _ _ Ha Hσ). cbn [fst snd].
  rewrite Hput. by eapply IH.
Qed.

(** X14. [From(data)] is [New()] followed by [Put(k, v)] for each pair of
    [data] in the order of the walk: the two end with the same table in the
    same heap. *)
Theorem From_is_New_then_Put l σ0 :
  From_range l σ0 = (ht ← New; Put_all ht l;; mret ht) σ0.
Proof.
  unfold From_range.
  destruct (New_repr σ0) as (h & σ1 & Hnew & Hr & _).
  rewrite (bind_run New _ σ0 h σ1 Hnew).
  rewrite (bind_run New (λ ht, Put_all ht l;; mret ht) σ0 h σ1 Hnew).
  unfold mbind, M_bind. rewrite (From_loop_Put_all h l σ1 ∅ Hr).
  reflexivity.
Qed.

Lemma Put_all_frame h l a : ∀ σ σ',
  Put_all h l σ = Ok (tt, σ') →
  (∀ j, h !! j ≠ Some (Some a)) → σ' !! a = σ !! a.
Proof.
  unfold Put_all.
  induction l as [|[k v] l IH]; intros σ σ' Hrun Ha.
  - by apply ret_inv in Hrun as [_ ->].
  - cbn [forM] in Hrun. apply bind_inv in Hrun as ([] & σ1 & Hput & Hrest).
    rewrite (IH _ _ Hrest Ha). by eapply Put_frame.
Qed.

(** X15. The order in which [range] walks the map does not matter: for
    every order [l] of the pairs of [data], [From] returns the same table
    and leaves the same heap as for the order of [map_to_list]. *)
Theorem From_order_irrelevant (data : gmap string string) l σ0 :
  l ≡ₚ map_to_list data →
  From_range l σ0 = From data σ0.
Proof.
  intros Hl. unfold From, From_range.
  destruct (New_repr σ0) as (h & σ1 & Hnew & Hr & _).
  erewrite !bind_run by exact Hnew.
  destruct (From_loop h l _ _ Hr) as (σ & Hrun & Hrepr).
  destruct (From_loop h (map_to_list data) _ _ Hr) as (σ' & Hrun' & Hrepr').
  erewrite !bind_run by done. unfold mret, M_ret. do 2 f_equal.
  rewrite (inserts_map_to_list l data Hl) in Hrepr.
  rewrite (inserts_map_to_list _ data (reflexivity _)) in Hrepr'.
  apply (repr_heap_eq h _ _ _ Hrepr Hrepr'). intros a Ha.
  rewrite (From_loop_Put_all h l _ _ Hr) in Hrun.
  rewrite (From_loop_Put_all h (map_to_list data) _ _ Hr) in Hrun'.
  rewrite (Put_all_frame _ _ _ _ _ Hrun Ha).
  by rewrite (Put_all_frame _ _ _ _ _ Hrun' Ha).
Qed.

Lemma From_order_irrelevant_witness :
  reverse (map_to_list ({["a" := "1"; "b" := "2"; "c" := "3"]}
                        : gmap string string))
    ≡ₚ map_to_list ({["a" := "1"; "b" := "2"; "c" := "3"]}
                    : gmap string string)
  ∧ From_range
      (reverse (map_to_list ({["a" := "1"; "b" := "2"; "c" := "3"]}
                             : gmap string string))) ∅
    = From {["a" := "1"; "b" := "2"; "c" := "3"]} ∅.
Proof.
  assert (reverse (map_to_list ({["a" := "1"; "b" := "2"; "c" := "3"]}
                                : gmap string string))
            ≡ₚ map_to_list ({["a" := "1"; "b" := "2"; "c" := "3"]}
                            : gmap string string)) as Hperm
    by apply reverse_Permutation.
  split; [exact Hperm|].
  exact (From_order_irrelevant _ _ ∅ Hperm).
Defined.


(** ** The container as one map *)

Lemma map_union_list_snoc (ms : list (gmap string string)) m :
  ⋃ (ms ++ [m]) = ⋃ ms ∪ m.
Proof.
  induction ms as [|m0 ms IH]; simpl.
  - by rewrite (right_id_L ∅ (∪)), (left_id_L ∅ (∪)).
  - by rewrite IH, (assoc_L (∪)).
Qed.

Lemma below_union i m : below (i + 1) m = below i m ∪ routed i m.
Proof.
  unfold below, routed. rewrite <- map_filter_or.
  apply map_filter_ext. intros k v _. simpl. lia.
Qed.

Lemma routed_union_below m (n : nat) :
  ⋃ ((λ i, routed i m) <$> seqZ 0 (Z.of_nat n)) = below (Z.of_nat n) m.
Proof.
  induction n as [|n IH].
  - by rewrite below_0.
  - rewrite seqZ_S, fmap_app.
    change ((λ i, routed i m) <$> [(0 + Z.of_nat n)%Z])
      with [routed (0 + Z.of_nat n) m].
    rewrite map_union_list_snoc, IH, Z.add_0_l.
    replace (Z.of_nat (S n)) with (Z.of_nat n + 1)%Z by lia.
    by rewrite below_union.
Qed.

(** A table that stands for [m] holds exactly the pairs of [m]. *)
Lemma repr_contents h σ m : repr h σ m → contents h σ = m.
Proof.
  intros Hr. unfold contents.
  pose proof (repr_length _ _ _ Hr) as Hlen. unfold SHARD_COUNT in Hlen.
  assert (shard_data σ <$> h = (λ i, routed i m) <$> seqZ 0 (Z.of_nat 32))
    as ->.
  { apply list_eq. intros j. rewrite !list_lookup_fmap.
    destruct (decide (j < 32)) as [Hj|Hj].
    - destruct (repr_shard _ _ _ Hr (Z.of_nat j)) as (l & Hl & Hσ).
      { unfold SHARD_COUNT. lia. }
      rewrite Nat2Z.id in Hl. rewrite Hl, lookup_seqZ_lt by lia. simpl.
      unfold shard_data. simpl. rewrite Hσ. simpl.
      by rewrite Z.add_0_l.
    - rewrite lookup_ge_None_2 by lia.
      by rewrite lookup_seqZ_ge by lia. }
  rewrite routed_union_below. apply below_all.
Qed.

(** X16. A reachable container behaves as the one map [contents] of its
    pairs: [Get] and [Has] look the key up in it, [Put] inserts into it,
    [PutIfNotExist] inserts when the key is not in it and says whether it
    did, [Del] removes from it and returns what was there, and [Len] is its
    size as an [int]. *)
Theorem container_is_a_map h σ k v :
  reachable h σ →
  Get h k σ = Ok (found (contents h σ !! k), σ)
  ∧ Has h k σ = Ok (bool_decide (is_Some (contents h σ !! k)), σ)
  ∧ (∃ σ', Put h k v σ = Ok (tt, σ')
         ∧ contents h σ' = <[k:=v]> (contents h σ))
  ∧ (∃ σ', PutIfNotExist h k v σ
           = Ok (bool_decide (contents h σ !! k = None), σ')
         ∧ contents h σ'
           = if contents h σ !! k is Some _ then contents h σ
             else <[k:=v]> (contents h σ))
  ∧ (∃ σ', Del h k σ = Ok (found (contents h σ !! k), σ')
         ∧ contents h σ' = delete k (contents h σ))
  ∧ Len h σ = Ok (Int.wrap_int (Z.of_nat (size (contents h σ))), σ).
Proof.
  intros [m Hr]%reachable_repr. rewrite (repr_contents _ _ _ Hr).
  destruct (repr_Put _ _ _ Hr k v) as (σp & Hput & Hrp).
  destruct (repr_PutIfNotExist _ _ _ Hr k v) as (σq & Hpine & Hrq).
  destruct (repr_Del _ _ _ Hr k) as (σd & Hdel & Hrd).
  split; [by apply repr_Get|]. split; [by apply repr_Has|].
  split; [exists σp; by rewrite (repr_contents _ _ _ Hrp)|].
  split; [exists σq; by rewrite (repr_contents _ _ _ Hrq)|].
  split; [exists σd; by rewrite (repr_contents _ _ _ Hrd)|].
  by apply repr_Len_wrap.
Qed.

Lemma container_is_a_map_witness :
  reachable fresh_table.1 one_entry_heap
  ∧ contents fresh_table.1 one_entry_heap = {["k" := "w"]}
  ∧ Get fresh_table.1 "k" one_entry_heap
    = Ok (found (contents fresh_table.1 one_entry_heap !! "k"),
          one_entry_heap)
  ∧ (∃ σ', Put fresh_table.1 "a" "b" one_entry_heap = Ok (tt, σ')
         ∧ contents fresh_table.1 σ'
           = <["a":="b"]> (contents fresh_table.1 one_entry_heap))
  ∧ Len fresh_table.1 one_entry_heap
    = Ok (Int.wrap_int
            (Z.of_nat (size (contents fresh_table.1 one_entry_heap))),
          one_entry_heap).
Proof.
  assert (reachable fresh_table.1 one_entry_heap) as Hreach.
  { apply (reach_Put fresh_table.1 fresh_table.2 "k" "w" tt).
    - apply (reach_New ∅). vm_compute. reflexivity.
    - vm_compute. reflexivity. }
  assert (contents fresh_table.1 one_entry_heap = {["k" := "w"]}) as Hcont
    by (vm_compute; reflexivity).
  destruct (container_is_a_map fresh_table.1 one_entry_heap "k" "v" Hreach)
    as (Hget & _ & _ & _ & _ & Hlen).
  destruct (container_is_a_map fresh_table.1 one_entry_heap "a" "b" Hreach)
    as (_ & _ & Hput & _).
  split; [exact Hreach|]. split; [exact Hcont|]. split; [exact Hget|].
  split; [exact Hput|exact Hlen].
Defined.

(** X17. The container that [New()] returns holds nothing, and the one
    that [From(data)] returns holds exactly the pairs of [data], in
    whichever order [l] the map is walked. *)
Theorem constructors_contents (data : gmap string string) l σ0 :
  (∃ h σ, New σ0 = Ok (h, σ) ∧ contents h σ = ∅)
  ∧ (l ≡ₚ map_to_list data →
     ∃ h σ, From_range l σ0 = Ok (h, σ) ∧ contents h σ = data).
Proof.
  split.
  - destruct (New_repr σ0) as (h & σ & Hnew & Hr & _).
    exists h, σ. split; [done|]. by apply repr_contents.
  - intros Hl.
    destruct (From_range_repr l data σ0 Hl) as (h & σ & Hrun & Hr).
    exists h, σ. split; [done|]. by apply repr_contents.
Qed.

Lemma constructors_contents_witness :
  reverse (map_to_list ({["a" := "1"; "b" := "2"]} : gmap string string))
    ≡ₚ map_to_list ({["a" := "1"; "b" := "2"]} : gmap string string)
  ∧ ∃ h σ,
      From_range
        (reverse (map_to_list ({["a" := "1"; "b" := "2"]}
                               : gmap string string))) ∅
      = Ok (h, σ)
      ∧ contents h σ = {["a" := "1"; "b" := "2"]}.
Proof.
  assert (reverse (map_to_list ({["a" := "1"; "b" := "2"]}
                                : gmap string string))
            ≡ₚ map_to_list ({["a" := "1"; "b" := "2"]}
                            : gmap string string)) as Hperm
    by apply reverse_Permutation.
  split; [exact Hperm|].
  exact (proj2 (constructors_contents _ _ ∅) Hperm).
Defined.


(** ** Keys that differ in their last byte *)

Lemma fnv32_loop_app s1 s2 : ∀ hash,
  fnv32_loop hash (s1 +:+ s2) = fnv32_loop (fnv32_loop hash s1) s2.
Proof. induction s1 as [|b s1 IH]; intros hash; simpl; [done|apply IH]. Qed.

Lemma fnv32_snoc s b :
  fnv32 (s +:+ String b EmptyString)
  = Z.lxor (Int.wrap_uint32 (fnv32 s * prime32)) (byte_val b).
Proof. unfold fnv32. by rewrite fnv32_loop_app. Qed.

Lemma lxor_cancel_l x a b : Z.lxor x a = Z.lxor x b ↔ a = b.
Proof.
  split; [|by intros ->]. intros H.
  apply (f_equal (Z.lxor x)) in H.
  by rewrite <- !Z.lxor_assoc, Z.lxor_nilpotent, !Z.lxor_0_l in H.
Qed.

Lemma byte_val_inj b1 b2 : byte_val b1 = byte_val b2 → b1 = b2.
Proof.
  unfold byte_val. intros H%(inj Z.of_N).
  by rewrite <- (ascii_N_embedding b1), <- (ascii_N_embedding b2), H.
Qed.

Lemma lxor_mod_32 a b :
  (Z.lxor a b mod 32 = Z.lxor (a mod 32) (b mod 32))%Z.
Proof.
  change 32%Z with (2 ^ 5)%Z.
  rewrite <- !Z.land_ones by lia. apply Z.bits_inj'. intros n Hn.
  rewrite !Z.land_spec, !Z.lxor_spec, !Z.land_spec.
  by destruct (Z.testbit a n), (Z.testbit b n), (Z.testbit (Z.ones 5) n).
Qed.

(** X18. Two keys that differ only in their last byte never have the same
    hash, and they are routed to the same shard exactly when the two bytes
    agree modulo 32: the last byte is XORed in after the last multiply, so
    its low five bits pick the shard among the 32. *)
Theorem last_byte_routing s b1 b2 :
  (fnv32 (s +:+ String b1 EmptyString) = fnv32 (s +:+ String b2 EmptyString)
   ↔ b1 = b2)
  ∧ (shardIndex (s +:+ String b1 EmptyString)
     = shardIndex (s +:+ String b2 EmptyString)
     ↔ (byte_val b1 mod 32 = byte_val b2 mod 32)%Z).
Proof.
  rewrite !shardIndex_eq, !fnv32_snoc. split.
  - rewrite lxor_cancel_l. split; [apply byte_val_inj|by intros ->].
  - by rewrite !lxor_mod_32, lxor_cancel_l.
Qed.

Lemma last_byte_routing_witness :
  shardIndex "key0" ≠ shardIndex "key1"
  ∧ shardIndex "keyA" = shardIndex "keya".
Proof.
  destruct (last_byte_routing "key" "0"%char "1"%char) as [_ H01].
  destruct (last_byte_routing "key" "A"%char "a"%char) as [_ HAa].
  split.
  - intros Heq. apply H01 in Heq. vm_compute in Heq. discriminate Heq.
  - apply HAa. vm_compute. reflexivity.
Defined.
